(** * rates-conv: the packed rate table and the [Conv] contract

    The repository is one Python script, [script/generate_compact_rates.py].
    It reads a mapping from yearly basis points to per-second RAY rates,
    packs [rate - RAY] into 8-byte big-endian fields (four per 32-byte
    storage word) and prints the Solidity contract [Conv] whose entry points
    [turn], [rtob] and [_rpow] read that table and convert back.

    This file embeds both halves: the generator (Python integers are [Z],
    the dict is a [gmap Z Z], exceptions are an error type) and the emitted
    contract (EVM words are [Z] reduced modulo [2^256], reverts are an error
    type). *)

From Stdlib Require Import ZArith Lia Ascii String List DecimalString.
From stdpp Require Import gmap sorting list list_numbers.

Local Open Scope Z_scope.

(** ** Outcomes of fallible code *)

(** What can go wrong.  The first two are EVM outcomes of the emitted
    contract, the last two Python exceptions of the generator.
    - [Revert]: a revert with empty return data, as produced by a failed
      [require(...)] without message and by [revert(0, 0)];
    - [Panic code]: raised by Solidity 0.8 checked arithmetic, code [0x11]
      for overflow and underflow, [0x12] for division by zero;
    - [IndexError]: indexing an empty Python list;
    - [ValueError bps adjusted_rate]: the generator's own
      "Rate difference too large for bps ..." exception. *)
Inductive error : Type :=
  | Revert
  | Panic (code : Z)
  | IndexError
  | ValueError (bps adjusted_rate : Z).

Inductive result (A : Type) : Type :=
  | Ok (a : A)
  | Err (e : error).
Arguments Ok {A} a.
Arguments Err {A} e.

Definition bind {A B} (r : result A) (k : A -> result B) : result B :=
  match r with
  | Ok a => k a
  | Err e => Err e
  end.

Notation "x <- r ;; k" := (bind r (fun x => k))
  (at level 100, r at next level, right associativity).

Definition is_ok {A} (r : result A) : bool :=
  match r with Ok _ => true | Err _ => false end.

(** ** The EVM instructions used by the inline assembly

    A word is a [Z] in [[0, 2^256)].  Arithmetic wraps, division and
    remainder by zero give zero, comparisons give 0 or 1. *)
Module EVM.

Definition modulus : Z := 2 ^ 256.

Definition word (a : Z) : Prop := 0 <= a < modulus.

Definition add (a b : Z) : Z := (a + b) mod modulus.
Definition sub (a b : Z) : Z := (a - b) mod modulus.
Definition mul (a b : Z) : Z := (a * b) mod modulus.
Definition div (a b : Z) : Z := if b =? 0 then 0 else a / b.
Definition mod_ (a b : Z) : Z := if b =? 0 then 0 else a mod b.
Definition lt (a b : Z) : Z := if a <? b then 1 else 0.
Definition eq (a b : Z) : Z := if a =? b then 1 else 0.
Definition iszero (a : Z) : Z := if a =? 0 then 1 else 0.
Definition and (a b : Z) : Z := Z.land a b.
Definition shr (shift value : Z) : Z :=
  if shift <? 256 then Z.shiftr value shift else 0.

(** A word used as a condition ([if c { ... }], [for { } c { }]). *)
Definition nonzero (c : Z) : bool := negb (c =? 0).

End EVM.

(** ** Constants of the contract *)

Definition RAY : Z := 10 ^ 27.

(** [365 days] in Solidity is the number of seconds. *)
Definition days_365 : Z := 365 * 86400.

(** ** [_rpow]: exponentiation by squaring at scale RAY *)

(** [let half := div(RAY, 2)]. *)
Definition half : Z := EVM.div RAY 2.

(** The first half of the loop body: [x] is replaced by its rounded square.
<<
    let xx := mul(x, x)
    if iszero(eq(div(xx, x), x)) { revert(0, 0) }
    let xxRound := add(xx, half)
    if lt(xxRound, xx) { revert(0, 0) }
    x := div(xxRound, RAY)
>> *)
Definition rpow_square (x : Z) : result Z :=
  let xx := EVM.mul x x in
  if EVM.nonzero (EVM.iszero (EVM.eq (EVM.div xx x) x)) then Err Revert else
  let xxRound := EVM.add xx half in
  if EVM.nonzero (EVM.lt xxRound xx) then Err Revert else
  Ok (EVM.div xxRound RAY).

(** The guarded second half of the loop body: [z] is replaced by the rounded
    product with the new [x].
<<
    let zx := mul(z, x)
    if and(iszero(iszero(x)), iszero(eq(div(zx, x), z))) { revert(0, 0) }
    let zxRound := add(zx, half)
    if lt(zxRound, zx) { revert(0, 0) }
    z := div(zxRound, RAY)
>> *)
Definition rpow_mulz (z x : Z) : result Z :=
  let zx := EVM.mul z x in
  if EVM.nonzero (EVM.and (EVM.iszero (EVM.iszero x))
                          (EVM.iszero (EVM.eq (EVM.div zx x) z)))
  then Err Revert else
  let zxRound := EVM.add zx half in
  if EVM.nonzero (EVM.lt zxRound zx) then Err Revert else
  Ok (EVM.div zxRound RAY).

(** The [for { n := div(n, 2) } n { n := div(n, 2) } { ... }] loop, entered
    with a nonzero [n].  The recursion follows the binary digits of [n]:
    [div(n, 2)] of [p~0] and of [p~1] is [p], and of [1] it is [0], which
    ends the loop. *)
Fixpoint rpow_loop (n : positive) (x z : Z) : result Z :=
  x <- rpow_square x ;;
  z <- (if EVM.nonzero (EVM.mod_ (Z.pos n) 2) then rpow_mulz z x else Ok z) ;;
  match n with
  | xH => Ok z
  | xO n' | xI n' => rpow_loop n' x z
  end.

Definition _rpow (x n : Z) : result Z :=
  if x =? 0 then
    (if n =? 0 then Ok RAY else Ok 0)
  else
    let z := if EVM.mod_ n 2 =? 0 then RAY else x in
    match EVM.div n 2 with
    | Z.pos n' => rpow_loop n' x z
    | _ => Ok z
    end.

(** ** [rtob]: Solidity 0.8 checked arithmetic on [uint256] *)

Definition checked_sub (a b : Z) : result Z :=
  if a <? b then Err (Panic 0x11) else Ok (a - b).
Definition checked_mul (a b : Z) : result Z :=
  if EVM.modulus <=? a * b then Err (Panic 0x11) else Ok (a * b).
Definition checked_add (a b : Z) : result Z :=
  if EVM.modulus <=? a + b then Err (Panic 0x11) else Ok (a + b).
Definition checked_div (a b : Z) : result Z :=
  if b =? 0 then Err (Panic 0x12) else Ok (a / b).

(** Modelled from the spec: the constant [BPS].  [rtob] multiplies by [BPS],
    but the template never declares it; the spec names the factor
    [BPS_SCALE = 10_000]. *)
Definition BPS : Z := 10000.

(** [return ((yearlyRate - RAY) * BPS + RAY / 2) / RAY;] *)
Definition rtob (ray : Z) : result Z :=
  yearlyRate <- _rpow ray days_365 ;;
  delta <- checked_sub yearlyRate RAY ;;
  scaled <- checked_mul delta BPS ;;
  half_ray <- checked_div RAY 2 ;;
  rounded <- checked_add scaled half_ray ;;
  checked_div rounded RAY.

(** ** The generator, [generate_compact_rates.py] *)

(** A Python [str] of hexadecimal digits. *)
Definition hexstr : Type := list ascii.

Definition hexdigit (d : Z) : ascii :=
  match d with
  | 0 => "0" | 1 => "1" | 2 => "2" | 3 => "3" | 4 => "4" | 5 => "5"
  | 6 => "6" | 7 => "7" | 8 => "8" | 9 => "9" | 10 => "a" | 11 => "b"
  | 12 => "c" | 13 => "d" | 14 => "e" | _ => "f"
  end%char.

(** The [width] low hexadecimal digits of [n], most significant first. *)
Fixpoint hex_of (width : nat) (n : Z) : hexstr :=
  match width with
  | O => []
  | S w => hex_of w (n / 16) ++ [hexdigit (n mod 16)]
  end.

(** [format(n & ((1 << 64) - 1), '016x')].  The masked value is below
    [2^64], so the zero-padded format has exactly 16 digits. *)
Definition int_to_bytes8 (n : Z) : hexstr :=
  hex_of 16 (Z.land n (Z.shiftl 1 64 - 1)).

(** [parse_rates_mapping], on the lines already split into [bps] and
    [rate]: the entries up to [max_bps] are stored in a dict, a later line
    for the same [bps] replacing an earlier one. *)
Definition parse_rates_mapping (lines : list (Z * Z)) (max_bps : Z)
  : gmap Z Z :=
  foldl (fun rates '(bps, rate) =>
           if bps <=? max_bps then <[bps := rate]> rates else rates)
        ∅ lines.

(** [sorted(rates.keys())]. *)
Definition sorted_keys (rates : gmap Z Z) : list Z :=
  merge_sort Z.le (elements (dom rates)).

(** [range(0, stop, step)]. *)
Definition range_step (stop step : nat) : list nat :=
  (fun k => k * step)%nat <$> seq 0 ((stop + step - 1) / step)%nat.

Fixpoint mapM {A B} (f : A -> result B) (l : list A) : result (list B) :=
  match l with
  | [] => Ok []
  | a :: l' => b <- f a ;; bs <- mapM f l' ;; Ok (b :: bs)
  end.

(** The body of the inner loop, for the position [k = i + j].  Inside the
    guard [k] is a valid index of [sorted_bps] and [bps] is a key of the
    dict, so neither lookup can raise. *)
Definition hex_rate (rates : gmap Z Z) (sorted_bps : list Z) (k : nat)
  : result hexstr :=
  if (k <? length sorted_bps)%nat then
    let bps := sorted_bps !!! k in
    let rate := rates !!! bps in
    let adjusted_rate := rate - RAY in
    if adjusted_rate >=? Z.shiftl 1 64
    then Err (ValueError bps adjusted_rate)
    else Ok (int_to_bytes8 adjusted_rate)
  else Ok (replicate 16 "0"%char).

(** One pass of the outer loop: the four fields of the word starting at
    position [i]. *)
Definition word_rates (rates : gmap Z Z) (sorted_bps : list Z) (i : nat)
  : result (list hexstr) :=
  mapM (fun j => hex_rate rates sorted_bps (i + j)) (seq 0 4).

(** The outer loop, [all_bytes.extend(word_rates)] for each [i]. *)
Definition all_bytes (rates : gmap Z Z) (sorted_bps : list Z)
  : result (list hexstr) :=
  words <- mapM (word_rates rates sorted_bps)
                (range_step (length sorted_bps) 4) ;;
  Ok (concat words).

(** What [generate_contract] fills into the template. *)
Record Conv : Type := {
  MAX : Z;            (* [{end_bps}] *)
  rate_count : nat;   (* [{len(sorted_bps)}] *)
  RATES_hex : hexstr  (* the digits of [{compact_bytes}] *)
}.

(** [generate_contract], from the parsed mapping on. *)
Definition generate_from (rates : gmap Z Z) : result Conv :=
  let sorted_bps := sorted_keys rates in
  start_bps <- match head sorted_bps with
               | Some b => Ok b | None => Err IndexError end ;;
  end_bps <- match last sorted_bps with
             | Some b => Ok b | None => Err IndexError end ;;
  fields <- all_bytes rates sorted_bps ;;
  Ok {| MAX := end_bps;
        rate_count := length sorted_bps;
        RATES_hex := concat fields |}.

Definition generate_contract (lines : list (Z * Z)) : result Conv :=
  generate_from (parse_rates_mapping lines 5000).

(** ** The emitted contract: storage and [turn] *)

Definition hexval (c : ascii) : Z :=
  let n := Z.of_nat (nat_of_ascii c) in
  if (48 <=? n) && (n <=? 57) then n - 48
  else if (97 <=? n) && (n <=? 102) then n - 87
  else if (65 <=? n) && (n <=? 70) then n - 55
  else 0.

(** The bytes denoted by a [hex"..."] literal: one per pair of digits. *)
Fixpoint unhex (s : hexstr) : list Z :=
  match s with
  | c1 :: c2 :: s' => (16 * hexval c1 + hexval c2) :: unhex s'
  | _ => []
  end.

(** A byte string read as a big-endian number. *)
Definition be_value (bs : list Z) : Z :=
  foldl (fun acc b => acc * 256 + b) 0 bs.

(** The [i]-th 32-byte word of a byte string, zero-padded on the right. *)
Definition data_word (bs : list Z) (i : nat) : Z :=
  be_value (take 32 (drop (32 * i) bs ++ replicate 32 0)).

(** [keccak256(RATES.slot, 0x20)]: [RATES] is the only state variable (the
    constants take no storage), so its slot is 0, and the hash of the
    32-byte encoding of 0 is this constant. *)
Definition dataSlot : Z :=
  0x290decd9548b62a8d60345a988386fc84ba6bc95484008f6362f93160ef3e563.

(** The storage of the deployed contract, by Solidity's layout of [bytes]:
    up to 31 bytes live in the slot itself with twice the length in the
    lowest byte; from 32 bytes on the slot holds [2 * length + 1] and the
    data starts at the hash of the slot.  Every other slot is zero. *)
Definition sload (c : Conv) (slot : Z) : Z :=
  let bs := unhex (RATES_hex c) in
  let len := Z.of_nat (length bs) in
  if slot =? 0 then
    (if len <? 32 then data_word bs 0 + 2 * len else 2 * len + 1)
  else if (32 <=? len) && (dataSlot <=? slot)
          && (slot <? dataSlot + (len + 31) / 32)
  then data_word bs (Z.to_nat (slot - dataSlot))
  else 0.

(** [function turn(uint256 bps) external view returns (uint256 rate)]. *)
Definition turn (c : Conv) (bps : Z) : result Z :=
  if negb (bps <=? MAX c) then Err Revert else
  let offset := EVM.mul bps 8 in
  let wordPos := EVM.div offset 32 in
  let bytePos := EVM.mod_ offset 32 in
  let value := sload c (EVM.add dataSlot wordPos) in
  let shifted := EVM.shr (EVM.mul (EVM.sub 24 bytePos) 8) value in
  Ok (EVM.add (EVM.and shifted 0xFFFFFFFFFFFFFFFF) RAY).

(** ** The text of the emitted contract *)

Module Text.

Local Open Scope string_scope.

(** [str(n)] of a Python integer. *)
Definition str (n : Z) : string := NilZero.string_of_int (Z.to_int n).

Definition dquote : string := String (ascii_of_nat 34) EmptyString.

(** Lines 81 to 90 of the script: the pragma and the title comment.  (The
    licence comment before them, lines 66 to 80, is left out.) *)
Definition preamble : list string :=
  [ "pragma solidity ^0.8.24;";
    "";
    "/**";
    " * @title Yearly Basis Points to per second RAY rate converter";
    " * @notice Utility contract to convert between yearly basis points and per second RAY rate in both directions with full precision.";
    " * @custom:authors []";
    " * @custom:reviewers []";
    " * @custom:auditors []";
    " * @custom:bounties []";
    "*/" ].

(** Lines 91 to 98: the contract's constants and the table. *)
Definition declarations (c : Conv) : list string :=
  [ "contract Conv {";
    "    uint256 constant public MAX = " ++ str (MAX c) ++ ";";
    "    uint256 constant internal RAY = 10**27;";
    "    ";
    "    /// @dev Each rate takes 8 bytes (64 bits), total of "
      ++ str (Z.of_nat (rate_count c)) ++ " rates";
    "    /// @dev Each storage word (32 bytes) contains exactly 4 rates";
    "    /// @dev Total size = " ++ str (Z.of_nat (rate_count c))
      ++ " * 8 = " ++ str (Z.of_nat (rate_count c * 8)) ++ " bytes";
    "    bytes internal RATES = hex" ++ dquote
      ++ string_of_list_ascii (RATES_hex c) ++ dquote ++ ";" ].

(** Lines 100 to 119. *)
Definition turn_source : list string :=
  [ "    /// @notice Fetches the rate for a given basis points value";
    "    /// @param bps The basis points value to get the rate for";
    "    /// @return rate The annual rate value";
    "    function turn(uint256 bps) external view returns (uint256 rate) {";
    "        require(bps <= MAX);";
    "        ";
    "        assembly {";
    "            let offset := mul(bps, 8)       // Each rate is 8 bytes";
    "            let wordPos := div(offset, 32)  // Which 32-byte word to read";
    "            let bytePos := mod(offset, 32)  // Position within the word";
    "";
    "            let dataSlot := keccak256(RATES.slot, 0x20)";
    "            ";
    "            let value := sload(add(dataSlot, wordPos))";
    "            ";
    "            let shifted := shr(mul(sub(24, bytePos), 8), value)";
    "            ";
    "            rate := add(and(shifted, 0xFFFFFFFFFFFFFFFF), RAY)";
    "        }";
    "    }" ].

(** Lines 121 to 130. *)
Definition rtob_source : list string :=
  [ "    /// @notice Calculates the yearly bps rate for a given per second rate";
    "    /// @param ray The per second rate to get the rate for";
    "    /// @return bps The annual rate value";
    "    function rtob(uint256 ray) external pure returns (uint256 bps) {";
    "        // Convert per-second rate to per-year rate using rpow";
    "        uint256 yearlyRate = _rpow(ray, 365 days);";
    "        // Subtract RAY to get the yearly rate delta and convert to basis points";
    "        // Add RAY/2 for rounding: ensures values are rounded up when >= 0.5 and down when < 0.5";
    "        return ((yearlyRate - RAY) * BPS + RAY / 2) / RAY;";
    "    }" ].

(** Lines 132 to 166. *)
Definition rpow_source : list string :=
  [ "    /// @notice Exponentiate `x` to `n` by squaring";
    "    /// @param x The base (RAY, 27 decimal places)";
    "    /// @param n The exponent (integer, 0 decimal places)";
    "    /// @return z The result";
    "    function _rpow(uint256 x, uint256 n) internal pure returns (uint256 z) {";
    "        assembly {";
    "            switch x";
    "            case 0 {";
    "                switch n";
    "                case 0 { z := RAY }";
    "                default { z := 0 }";
    "            }";
    "            default {";
    "                switch mod(n, 2)";
    "                case 0 { z := RAY }";
    "                default { z := x }";
    "                let half := div(RAY, 2) // for rounding.";
    "                for { n := div(n, 2) } n { n := div(n, 2) } {";
    "                    let xx := mul(x, x)";
    "                    if iszero(eq(div(xx, x), x)) { revert(0, 0) }";
    "                    let xxRound := add(xx, half)";
    "                    if lt(xxRound, xx) { revert(0, 0) }";
    "                    x := div(xxRound, RAY)";
    "                    if mod(n, 2) {";
    "                        let zx := mul(z, x)";
    "                        if and(iszero(iszero(x)), iszero(eq(div(zx, x), z))) { revert(0, 0) }";
    "                        let zxRound := add(zx, half)";
    "                        if lt(zxRound, zx) { revert(0, 0) }";
    "                        z := div(zxRound, RAY)";
    "                    }";
    "                }";
    "            }";
    "        }";
    "    }    ";
    "}" ].

(** The f-string [contract_template], line by line. *)
Definition contract_text (c : Conv) : list string :=
  (preamble ++ declarations c ++ [""] ++ turn_source ++ [""]
   ++ rtob_source ++ [""] ++ rpow_source)%list.

(** *** Reading the emitted text *)

(** The part of a line before a [//] comment. *)
Fixpoint code_part (s : string) : string :=
  match s with
  | String "/" (String "/" _) => ""
  | String ch s' => String ch (code_part s')
  | EmptyString => ""
  end.

Definition flush (cur : string) : list string :=
  match cur with EmptyString => [] | _ => [cur] end.

(** The blank-separated words of a line. *)
Fixpoint words_from (cur s : string) : list string :=
  match s with
  | EmptyString => flush cur
  | String " " s' => (flush cur ++ words_from "" s')%list
  | String ch s' => words_from (cur ++ String ch "") s'
  end.

Definition words (s : string) : list string := words_from "" s.

Definition is_ident_char (ch : ascii) : bool :=
  let n := nat_of_ascii ch in
  ((48 <=? n) && (n <=? 57) || (65 <=? n) && (n <=? 90)
   || (97 <=? n) && (n <=? 122) || (n =? 95))%nat.

(** The identifiers and numerals of a line, in order. *)
Fixpoint tokens_from (cur s : string) : list string :=
  match s with
  | EmptyString => flush cur
  | String ch s' =>
      if is_ident_char ch then tokens_from (cur ++ String ch "") s'
      else (flush cur ++ tokens_from "" s')%list
  end.

Definition tokens (s : string) : list string := tokens_from "" s.

(** The name that a line declares as a [uint256] constant, if it does:
    [uint256 constant <visibility> <name> = ...]. *)
Definition declared_constant (line : string) : option string :=
  match words (code_part line) with
  | "uint256" :: "constant" :: _ :: name :: "=" :: _ => Some name
  | _ => None
  end.

Definition declared_constants (text : list string) : list string :=
  omap declared_constant text.

(** Everything a piece of source refers to by name. *)
Definition referenced (text : list string) : list string :=
  flat_map (fun line => tokens (code_part line)) text.

End Text.

(** ** [pack_rates], the byte-level packer of the script *)

(** The [len] low bytes of [n], most significant first. *)
Fixpoint be_bytes (len : nat) (n : Z) : list Z :=
  match len with
  | O => []
  | S k => be_bytes k (n / 256) ++ [n mod 256]
  end.

(** [n.to_bytes(len, 'big')]: Python raises [OverflowError], here [None],
    for a negative integer and for one that needs more than [len] bytes. *)
Definition to_bytes (len : nat) (n : Z) : option (list Z) :=
  if (n <? 0) || (256 ^ Z.of_nat len <=? n) then None
  else Some (be_bytes len n).

(** [pack_rates]: each rate as a full 8-byte value, one after the other. *)
Fixpoint pack_rates (rates : list Z) : option (list Z) :=
  match rates with
  | [] => Some []
  | rate :: rest =>
      match to_bytes 8 rate with
      | None => None
      | Some field =>
          match pack_rates rest with
          | None => None
          | Some packed => Some (field ++ packed)
          end
      end
  end.

(** A digit as [format(..., 'x')] writes it. *)
Definition is_lower_hex (c : ascii) : bool :=
  let n := nat_of_ascii c in
  ((48 <=? n) && (n <=? 57) || (97 <=? n) && (n <=? 102))%nat.

(** ** The scenario of section 8 of the spec *)

Definition sample_lines : list (Z * Z) := [(0, RAY); (100, RAY + 5)].

(** What the generator makes of it: one word, the two entries in its first
    two fields. *)
Definition sample_conv : Conv :=
  {| MAX := 100;
     rate_count := 2;
     RATES_hex := int_to_bytes8 0 ++ int_to_bytes8 5
                  ++ replicate 16 "0"%char ++ replicate 16 "0"%char |}.

(** ** The packed layout in closed form *)

(** The number of passes of the outer loop, that is of 32-byte words. *)
Definition word_count (len : nat) : nat := ((len + 4 - 1) / 4)%nat.

(** The field that the inner loop appends for position [k] when it does not
    raise: the encoded delta of the [k]-th sorted entry, or the padding. *)
Definition field_at (rates : gmap Z Z) (sorted_bps : list Z) (k : nat)
  : hexstr :=
  if (k <? length sorted_bps)%nat
  then int_to_bytes8 (rates !!! (sorted_bps !!! k) - RAY)
  else replicate 16 "0"%char.

(** The 64 digits of the word that starts at position [i]. *)
Definition hexword_at (rates : gmap Z Z) (sorted_bps : list Z) (i : nat)
  : hexstr :=
  field_at rates sorted_bps i ++ field_at rates sorted_bps (i + 1) ++
  field_at rates sorted_bps (i + 2) ++ field_at rates sorted_bps (i + 3).

(** The 64-bit number that the field of position [k] denotes. *)
Definition stored_delta (rates : gmap Z Z) (sorted_bps : list Z) (k : nat)
  : Z :=
  if (k <? length sorted_bps)%nat
  then (rates !!! (sorted_bps !!! k) - RAY) mod 2 ^ 64
  else 0.

(** ** The spec's wording of one multiplication of [pow] *)

(** One fixed-point multiplication as section 4.1 of the spec words it: the
    product is rejected when it leaves the 256-bit range, [RAY/2] is added
    for round-half-up, rejected again when that leaves the range, and the
    sum is divided by [RAY]. *)
Definition rmul_checked (a b : Z) : result Z :=
  if EVM.modulus <=? a * b then Err Revert
  else if EVM.modulus <=? a * b + RAY / 2 then Err Revert
  else Ok ((a * b + RAY / 2) / RAY).

(** * Properties *)

(** ** Word arithmetic *)

Section WordArith.

Import EVM.

Lemma modulus_eq :
  modulus =
  115792089237316195423570985008687907853269984665640564039457584007913129639936.
Proof. reflexivity. Qed.

Lemma RAY_eq : RAY = 1000000000000000000000000000.
Proof. reflexivity. Qed.

Lemma half_eq : half = 500000000000000000000000000.
Proof. reflexivity. Qed.

Lemma mul_small (a b : Z) : 0 <= a * b < modulus -> mul a b = a * b.
Proof. intros H. unfold mul. now apply Z.mod_small. Qed.

Lemma add_small (a b : Z) : 0 <= a + b < modulus -> add a b = a + b.
Proof. intros H. unfold add. now apply Z.mod_small. Qed.

(** Dividing the wrapped product back by a nonzero factor recovers the other
    factor exactly when the product did not wrap. *)
Lemma div_back (a b : Z) :
  word a -> word b -> 0 < b ->
  (div (mul a b) b =? a) = (a * b <? modulus).
Proof.
  intros Ha Hb Hpos. unfold word in *.
  unfold div. destruct (Z.eqb_spec b 0) as [->|_]; [lia|].
  destruct (Z.ltb_spec (a * b) modulus) as [Hlt|Hge].
  - rewrite mul_small by nia. rewrite Z.div_mul by lia. apply Z.eqb_refl.
  - apply Z.eqb_neq. intros Heq.
    assert (Hm : 0 <= mul a b < modulus)
      by (apply Z.mod_pos_bound; rewrite modulus_eq; lia).
    assert (Hlow : mul a b < a * b) by lia.
    assert (mul a b / b < a) by (apply Z.div_lt_upper_bound; lia).
    lia.
Qed.

(** The rounding addition wrapped exactly when the sum is below the
    product. *)
Lemma add_wrapped (p h : Z) :
  word p -> word h ->
  (add p h <? p) = (modulus <=? p + h).
Proof.
  intros Hp Hh. unfold word in *. unfold add.
  destruct (Z.leb_spec modulus (p + h)) as [Hge|Hlt].
  - replace ((p + h) mod modulus) with (p + h - modulus).
    + apply Z.ltb_lt. lia.
    + apply Z.mod_unique with (q := 1); lia.
  - rewrite Z.mod_small by lia. apply Z.ltb_ge. lia.
Qed.

Lemma word_half : word half.
Proof. unfold word. rewrite half_eq, modulus_eq. lia. Qed.

Lemma half_div : half = RAY / 2.
Proof. reflexivity. Qed.

End WordArith.

(** ** [_rpow] *)

Section Rpow.

Import EVM.

(** Unfolds the 0/1 encoding of the assembly's conditions. *)
Ltac evm_cond :=
  unfold nonzero, iszero, eq, lt, and.

Lemma rmul_checked_word (a b r : Z) :
  0 <= a -> 0 <= b -> rmul_checked a b = Ok r ->
  0 <= r <= (modulus - 1) / RAY.
Proof.
  intros Ha Hb. unfold rmul_checked.
  destruct (Z.leb_spec modulus (a * b)); [discriminate|].
  destruct (Z.leb_spec modulus (a * b + RAY / 2)); [discriminate|].
  intros [= <-]. split.
  - apply Z.div_pos; [|reflexivity].
    assert (0 <= RAY / 2) by (now vm_compute). nia.
  - apply Z.div_le_mono; [reflexivity | lia].
Qed.

Lemma small_is_word (r : Z) : 0 <= r <= (modulus - 1) / RAY -> word r.
Proof.
  unfold word. intros [H0 H1]. split; [exact H0|].
  eapply Z.le_lt_trans; [exact H1|]. now vm_compute.
Qed.

Lemma rpow_square_spec (x : Z) :
  word x -> rpow_square x = rmul_checked x x.
Proof.
  intros Hx. destruct (Z.eq_dec x 0) as [->|Hne]; [reflexivity|].
  assert (Hpos : 0 < x) by (unfold word in Hx; lia).
  unfold rpow_square, rmul_checked. evm_cond.
  rewrite (div_back x x Hx Hx Hpos).
  destruct (Z.ltb_spec (x * x) modulus) as [Hlt|Hge].
  - destruct (Z.leb_spec modulus (x * x)); [lia|]. cbn [negb Z.eqb].
    rewrite mul_small by nia.
    assert (Hxx : word (x * x)) by (unfold word; nia).
    rewrite (add_wrapped _ _ Hxx word_half), half_div.
    destruct (Z.leb_spec modulus (x * x + RAY / 2)) as [|Hfit]; [reflexivity|].
    cbn [negb Z.eqb]. rewrite add_small.
    + unfold div. now destruct (Z.eqb_spec RAY 0).
    + assert (0 <= RAY / 2) by (now vm_compute). nia.
  - destruct (Z.leb_spec modulus (x * x)); [reflexivity | lia].
Qed.

Lemma rpow_mulz_spec (z x : Z) :
  word z -> word x -> rpow_mulz z x = rmul_checked z x.
Proof.
  intros Hz Hx. destruct (Z.eq_dec x 0) as [->|Hne].
  - unfold rpow_mulz, rmul_checked, mul. rewrite Z.mul_0_r. reflexivity.
  - assert (Hpos : 0 < x) by (unfold word in Hx; lia).
    unfold rpow_mulz, rmul_checked. evm_cond.
    destruct (Z.eqb_spec x 0) as [|_]; [contradiction|]. cbn [Z.eqb].
    rewrite (div_back z x Hz Hx Hpos).
    unfold word in Hz.
    destruct (Z.ltb_spec (z * x) modulus) as [Hlt|Hge].
    + destruct (Z.leb_spec modulus (z * x)); [lia|]. cbn [negb Z.eqb Z.land].
      rewrite mul_small by nia.
      assert (Hzx : word (z * x)) by (unfold word; nia).
      rewrite (add_wrapped _ _ Hzx word_half), half_div.
      destruct (Z.leb_spec modulus (z * x + RAY / 2)) as [|Hfit];
        [reflexivity|].
      cbn [negb Z.eqb]. rewrite add_small.
      * unfold div. now destruct (Z.eqb_spec RAY 0).
      * assert (0 <= RAY / 2) by (now vm_compute). nia.
    + destruct (Z.leb_spec modulus (z * x)); [reflexivity | lia].
Qed.

(** The largest square below [2^256] leaves room for the rounding term, so a
    squaring that passes the product check passes the rounding check. *)
Lemma square_round_fits (x : Z) :
  0 <= x -> x * x < modulus -> x * x + RAY / 2 < modulus.
Proof.
  intros H0 Hsq.
  assert (Hx : x <= 2 ^ 128 - 1).
  { destruct (Z.le_gt_cases x (2 ^ 128 - 1)) as [|Hbig]; [assumption|].
    assert (2 ^ 128 * 2 ^ 128 <= x * x) by (apply Z.mul_le_mono_nonneg; lia).
    rewrite modulus_eq in Hsq. lia. }
  assert (x * x <= (2 ^ 128 - 1) * (2 ^ 128 - 1))
    by (apply Z.mul_le_mono_nonneg; lia).
  rewrite modulus_eq. change (RAY / 2) with 500000000000000000000000000. lia.
Qed.

Lemma nonzero_mod2 (n : Z) : nonzero (mod_ n 2) = Z.odd n.
Proof.
  unfold nonzero, mod_. cbn [Z.eqb]. rewrite Zmod_odd.
  now destruct (Z.odd n).
Qed.

(** The step to the next [n] is [div(n, 2)], and the parity test is on the
    low bit of [n]. *)
Lemma rpow_loop_unfold (n : positive) (x z : Z) :
  rpow_loop n x z =
  (x' <- rpow_square x ;;
   z' <- (if Z.odd (Z.pos n) then rpow_mulz z x' else Ok z) ;;
   match div (Z.pos n) 2 with
   | Z.pos n' => rpow_loop n' x' z'
   | _ => Ok z'
   end).
Proof.
  destruct n as [n|n|]; cbn [rpow_loop]; rewrite nonzero_mod2.
  - replace (div (Z.pos n~1) 2) with (Z.pos n)
      by (unfold div; cbn [Z.eqb]; rewrite Pos2Z.inj_xI;
          apply Z.div_unique with (r := 1); lia).
    reflexivity.
  - replace (div (Z.pos n~0) 2) with (Z.pos n)
      by (unfold div; cbn [Z.eqb]; rewrite Pos2Z.inj_xO;
          apply Z.div_unique with (r := 0); lia).
    reflexivity.
  - reflexivity.
Qed.

(** Every result of the loop comes out of a final rounded multiplication
    into [z], hence is far below the 256-bit range. *)
Lemma rpow_loop_bound (n : positive) :
  forall x z r, word x -> word z -> rpow_loop n x z = Ok r ->
  0 <= r <= (modulus - 1) / RAY.
Proof.
  induction n as [n IH|n IH|]; intros x z r Hx Hz; cbn [rpow_loop];
    rewrite nonzero_mod2, (rpow_square_spec x Hx);
    destruct (rmul_checked x x) as [x'|e] eqn:Hsq; cbn [bind];
    try discriminate;
    assert (Hx' : word x')
      by (apply small_is_word, (rmul_checked_word x x);
          unfold word in Hx; (lia || assumption)).
  - cbn [Z.odd].
    rewrite (rpow_mulz_spec z x' Hz Hx').
    destruct (rmul_checked z x') as [z'|e] eqn:Hm; cbn [bind];
      [|discriminate].
    apply IH; [assumption|].
    apply small_is_word, (rmul_checked_word z x');
      unfold word in *; (lia || assumption).
  - cbn [Z.odd].
    cbn [bind]. now apply IH.
  - cbn [Z.odd].
    rewrite (rpow_mulz_spec z x' Hz Hx').
    destruct (rmul_checked z x') as [z'|e] eqn:Hm; cbn [bind];
      [|discriminate].
    intros [= <-]. apply (rmul_checked_word z x');
      unfold word in *; (lia || assumption).
Qed.

End Rpow.

Section RpowClaims.

Import EVM.

Lemma rpow_result_bound (x n y : Z) :
  word x -> 2 <= n -> _rpow x n = Ok y -> 0 <= y <= (modulus - 1) / RAY.
Proof.
  intros Hx Hn. unfold _rpow.
  destruct (Z.eqb_spec x 0) as [->|Hne].
  - destruct (Z.eqb_spec n 0); [lia|]. intros [= <-]. now vm_compute.
  - assert (Hdiv : 1 <= div n 2)
      by (unfold div; cbn [Z.eqb]; apply Z.div_le_lower_bound; lia).
    destruct (div n 2) as [|n'|n']; try lia.
    apply rpow_loop_bound; [assumption|].
    destruct (mod_ n 2 =? 0); [now vm_compute | assumption].
Qed.

(** C5: for a nonzero base [x], the check [div(mul(x, x), x) == x] on the
    wrapped square succeeds exactly when the true product [x * x] is below
    [2^256]; the whole squaring step reverts exactly in the case of that
    overflow and otherwise yields the rounded square; and when it reverts,
    the loop and [_rpow] revert as a whole, whatever [z] had been reached. *)
Theorem rpow_square_check_exact (x z n : Z) (p : positive) :
  word x -> x <> 0 -> 2 <= n ->
  (eq (div (mul x x) x) x = 1 <-> x * x < modulus) /\
  (rpow_square x = Err Revert <-> modulus <= x * x) /\
  (x * x < modulus -> rpow_square x = Ok ((x * x + RAY / 2) / RAY)) /\
  (modulus <= x * x -> rpow_loop p x z = Err Revert) /\
  (modulus <= x * x -> _rpow x n = Err Revert).
Proof.
  intros Hx Hne Hn.
  assert (Hpos : 0 < x) by (unfold word in Hx; lia).
  assert (Hsq : modulus <= x * x -> rpow_square x = Err Revert).
  { intros Hov. rewrite (rpow_square_spec x Hx). unfold rmul_checked.
    now destruct (Z.leb_spec modulus (x * x)); [|lia]. }
  assert (Hok : x * x < modulus ->
                rpow_square x = Ok ((x * x + RAY / 2) / RAY)).
  { intros Hlt. rewrite (rpow_square_spec x Hx). unfold rmul_checked.
    pose proof (square_round_fits x (proj1 Hx) Hlt).
    destruct (Z.leb_spec modulus (x * x)); [lia|].
    now destruct (Z.leb_spec modulus (x * x + RAY / 2)); [lia|]. }
  assert (Hloop : modulus <= x * x -> forall q z', rpow_loop q x z' = Err Revert).
  { intros Hov q z'. rewrite rpow_loop_unfold, (Hsq Hov). reflexivity. }
  split; [|split; [|split; [|split]]].
  - unfold eq. rewrite (div_back x x Hx Hx Hpos).
    destruct (Z.ltb_spec (x * x) modulus); split;
      solve [lia | trivial | discriminate].
  - split; [|exact Hsq].
    intros Hrev. destruct (Z.le_gt_cases modulus (x * x)) as [|Hlt];
      [assumption|]. rewrite (Hok Hlt) in Hrev. discriminate.
  - exact Hok.
  - intros Hov. apply (Hloop Hov).
  - intros Hov. unfold _rpow.
    destruct (Z.eqb_spec x 0); [contradiction|].
    assert (Hdiv : 1 <= div n 2)
      by (unfold div; cbn [Z.eqb]; apply Z.div_le_lower_bound; lia).
    destruct (div n 2) as [|n'|n']; try lia. apply (Hloop Hov).
Qed.

Lemma rpow_square_check_exact_witness :
  rpow_square (2 ^ 130) = Err Revert /\
  rpow_loop 3 (2 ^ 130) RAY = Err Revert /\
  _rpow (2 ^ 130) 7 = Err Revert /\
  rpow_square (2 * RAY) = Ok ((2 * RAY * (2 * RAY) + RAY / 2) / RAY).
Proof.
  assert (Hbig : word (2 ^ 130)) by (unfold word; rewrite modulus_eq; lia).
  assert (Hray : word (2 * RAY))
    by (unfold word; rewrite modulus_eq, RAY_eq; lia).
  destruct (rpow_square_check_exact (2 ^ 130) RAY 7 3 Hbig)
    as (_ & Hrev & _ & Hloop & Hpow); [lia | lia |].
  destruct (rpow_square_check_exact (2 * RAY) RAY 7 3 Hray)
    as (_ & _ & Hok & _); [rewrite RAY_eq; lia | lia |].
  assert (Hov : modulus <= 2 ^ 130 * 2 ^ 130) by (rewrite modulus_eq; lia).
  split; [|split; [|split]].
  - now apply Hrev.
  - now apply Hloop.
  - now apply Hpow.
  - apply Hok. rewrite modulus_eq, RAY_eq. lia.
Defined.

(** C6: in an iteration whose current bit of [n] is set, the multiplication
    into [z] is the same checked, rounded multiplication as the squaring of
    [x]: both revert when the product leaves the 256-bit range, both add
    [RAY/2] and revert when that wraps, both divide by [RAY]; and [z] is
    only replaced once the multiplication went through. *)
Theorem rpow_mulz_mirrors_square (n : positive) (x z : Z) :
  word x -> word z -> Z.odd (Z.pos n) = true ->
  rpow_square x = rmul_checked x x /\
  (forall x', word x' -> rpow_mulz z x' = rmul_checked z x') /\
  rpow_loop n x z =
    (x' <- rmul_checked x x ;;
     z' <- rmul_checked z x' ;;
     match div (Z.pos n) 2 with
     | Z.pos n' => rpow_loop n' x' z'
     | _ => Ok z'
     end).
Proof.
  intros Hx Hz Hodd. split; [|split].
  - now apply rpow_square_spec.
  - intros x' Hx'. now apply rpow_mulz_spec.
  - rewrite rpow_loop_unfold, Hodd, (rpow_square_spec x Hx).
    destruct (rmul_checked x x) as [x'|e] eqn:Hsq; [|reflexivity].
    cbn [bind]. rewrite rpow_mulz_spec; [reflexivity | assumption |].
    apply small_is_word, (rmul_checked_word x x);
      unfold word in Hx; (lia || assumption).
Qed.

Lemma rpow_mulz_mirrors_square_witness :
  rpow_square (2 * RAY) = rmul_checked (2 * RAY) (2 * RAY) /\
  rpow_loop 5 (2 * RAY) (3 * RAY) =
    (x' <- rmul_checked (2 * RAY) (2 * RAY) ;;
     z' <- rmul_checked (3 * RAY) x' ;;
     match div 5 2 with
     | Z.pos n' => rpow_loop n' x' z'
     | _ => Ok z'
     end).
Proof.
  assert (H2 : word (2 * RAY))
    by (unfold word; rewrite modulus_eq, RAY_eq; lia).
  assert (H3 : word (3 * RAY))
    by (unfold word; rewrite modulus_eq, RAY_eq; lia).
  destruct (rpow_mulz_mirrors_square 5 (2 * RAY) (3 * RAY) H2 H3 eq_refl)
    as (Hsq & _ & Hloop).
  split; assumption.
Defined.

(** C7: [pow(RAY, 0) = RAY], [pow(0, 0) = RAY], [pow(0, n) = 0] for
    [n > 0], and [pow(x, 1) = x] for every 256-bit [x]. *)
Theorem rpow_identities (n x : Z) :
  0 < n -> word x ->
  _rpow RAY 0 = Ok RAY /\
  _rpow 0 0 = Ok RAY /\
  _rpow 0 n = Ok 0 /\
  _rpow x 1 = Ok x.
Proof.
  intros Hn Hx. split; [|split; [|split]]; [reflexivity | reflexivity | |].
  - unfold _rpow. cbn [Z.eqb]. now destruct (Z.eqb_spec n 0); [lia|].
  - unfold _rpow. destruct (Z.eqb_spec x 0) as [->|]; reflexivity.
Qed.

Lemma rpow_identities_witness :
  _rpow RAY 0 = Ok RAY /\
  _rpow 0 0 = Ok RAY /\
  _rpow 0 days_365 = Ok 0 /\
  _rpow (RAY + 5) 1 = Ok (RAY + 5).
Proof.
  apply (rpow_identities days_365 (RAY + 5)).
  - reflexivity.
  - unfold word. rewrite modulus_eq, RAY_eq. lia.
Defined.

(** C3, the claim as stated fails: for the rate [RAY - 1] the power step
    succeeds, with a yearly rate below [RAY], and [rtob] still fails, in
    the checked subtraction. *)
Lemma rtob_fails_after_pow_succeeds :
  _rpow (RAY - 1) days_365 = Ok 999999999999999999968464000 /\
  rtob (RAY - 1) = Err (Panic 0x11).
Proof. split; now vm_compute. Qed.

(** C3, amended: [rtob] fails when the power step fails, with its revert,
    and when the power step yields a yearly rate below [RAY], with the
    arithmetic panic of the checked subtraction; in every other case it
    returns [((yearly - RAY) * 10000 + RAY / 2) / RAY]. *)
Theorem rtob_outcome (ray : Z) :
  word ray ->
  rtob ray =
    match _rpow ray days_365 with
    | Err e => Err e
    | Ok yearly =>
        if yearly <? RAY then Err (Panic 0x11)
        else Ok (((yearly - RAY) * 10000 + RAY / 2) / RAY)
    end.
Proof.
  intros Hray. unfold rtob.
  destruct (_rpow ray days_365) as [y|e] eqn:Hpow; [|reflexivity].
  cbn [bind]. unfold checked_sub.
  destruct (Z.ltb_spec y RAY) as [|Hge]; [reflexivity|]. cbn [bind].
  apply rpow_result_bound in Hpow; [|assumption|now vm_compute].
  assert (Hc : (modulus - 1) / RAY =
               115792089237316195423570985008687907853269984665640)
    by reflexivity.
  rewrite Hc in Hpow. rewrite RAY_eq in Hge.
  unfold checked_mul, BPS.
  destruct (Z.leb_spec modulus ((y - RAY) * 10000)) as [Hov|_].
  { rewrite modulus_eq, RAY_eq in Hov. lia. }
  cbn [bind]. change (checked_div RAY 2) with (Ok (RAY / 2)). cbn [bind].
  unfold checked_add.
  destruct (Z.leb_spec modulus ((y - RAY) * 10000 + RAY / 2)) as [Hov|_].
  { rewrite modulus_eq, RAY_eq in Hov.
    change (1000000000000000000000000000 / 2)
      with 500000000000000000000000000 in Hov. lia. }
  cbn [bind]. unfold checked_div. now destruct (Z.eqb_spec RAY 0).
Qed.

Lemma rtob_outcome_witness :
  rtob 1000000001547125957863212448 = Ok 500.
Proof.
  rewrite (rtob_outcome 1000000001547125957863212448).
  - now vm_compute.
  - unfold word. rewrite modulus_eq. lia.
Defined.

End RpowClaims.

(** ** Hexadecimal digits and bytes *)

Section HexBytes.

Lemma hexval_hexdigit (d : Z) : 0 <= d < 16 -> hexval (hexdigit d) = d.
Proof.
  intros Hd. destruct d as [|p|p]; [reflexivity| |lia].
  repeat (destruct p as [p|p|]; try reflexivity; try lia).
Qed.

Lemma length_hex_of (w : nat) : forall n, length (hex_of w n) = w.
Proof.
  induction w as [|w IH]; intros n; [reflexivity|].
  cbn [hex_of]. rewrite length_app, IH. cbn. lia.
Qed.

Lemma hex_of_two_more (w : nat) (n : Z) :
  hex_of (S (S w)) n =
  hex_of w (n / 256) ++ [hexdigit ((n / 16) mod 16); hexdigit (n mod 16)].
Proof.
  cbn [hex_of]. rewrite <- app_assoc. cbn [app].
  now rewrite Z.div_div by lia.
Qed.

(** Splitting a digit string at an even position splits its bytes. *)
Lemma unhex_app_even (n : nat) :
  forall s1 s2, length s1 = (2 * n)%nat ->
  unhex (s1 ++ s2) = unhex s1 ++ unhex s2.
Proof.
  induction n as [|n IH]; intros s1 s2 Hlen.
  - destruct s1; [reflexivity | discriminate].
  - destruct s1 as [|c1 [|c2 s1]]; cbn in Hlen; try lia.
    cbn [app unhex]. rewrite (IH s1 s2) by lia. reflexivity.
Qed.

Lemma length_unhex (n : nat) :
  forall s, length s = (2 * n)%nat -> length (unhex s) = n.
Proof.
  induction n as [|n IH]; intros s Hlen.
  - destruct s; [reflexivity | discriminate].
  - destruct s as [|c1 [|c2 s]]; cbn in Hlen; try lia.
    cbn [unhex length]. rewrite (IH s) by lia. reflexivity.
Qed.

Lemma be_value_snoc (bs : list Z) (b : Z) :
  be_value (bs ++ [b]) = be_value bs * 256 + b.
Proof. unfold be_value. now rewrite foldl_app. Qed.

Lemma be_value_app (a b : list Z) :
  be_value (a ++ b) = be_value a * 256 ^ Z.of_nat (length b) + be_value b.
Proof.
  induction b as [|x b IH] using rev_ind.
  - rewrite app_nil_r. cbn. lia.
  - rewrite app_assoc, !be_value_snoc, IH, length_app. cbn [length].
    replace (Z.of_nat (length b + 1)) with (Z.succ (Z.of_nat (length b)))
      by lia.
    rewrite Z.pow_succ_r by lia. ring.
Qed.

(** The bytes of a [2 * n]-digit rendering are the big-endian bytes of the
    number modulo [256^n]. *)
Lemma be_value_unhex_hex_of (n : nat) :
  forall v, be_value (unhex (hex_of (2 * n) v)) = v mod 256 ^ Z.of_nat n.
Proof.
  induction n as [|n IH]; intros v.
  - cbn. now rewrite Z.mod_1_r.
  - replace (2 * S n)%nat with (S (S (2 * n))) by lia.
    rewrite hex_of_two_more.
    rewrite (unhex_app_even n) by (rewrite length_hex_of; lia).
    cbn [unhex]. rewrite be_value_snoc, IH.
    rewrite !hexval_hexdigit by (apply Z.mod_pos_bound; lia).
    replace (Z.of_nat (S n)) with (Z.succ (Z.of_nat n)) by lia.
    rewrite Z.pow_succ_r by lia.
    assert (Hpow : 0 < 256 ^ Z.of_nat n) by (apply Z.pow_pos_nonneg; lia).
    rewrite (Z.rem_mul_r v 256 (256 ^ Z.of_nat n)) by lia.
    assert (Hbyte : v mod 256 = v mod 16 + 16 * ((v / 16) mod 16))
      by (apply (Z.rem_mul_r v 16 16); lia).
    rewrite Hbyte. ring.
Qed.

Lemma int_to_bytes8_value (n : Z) :
  be_value (unhex (int_to_bytes8 n)) = n mod 2 ^ 64.
Proof.
  unfold int_to_bytes8. change 16%nat with (2 * 8)%nat.
  rewrite be_value_unhex_hex_of.
  change (Z.shiftl 1 64 - 1) with (Z.ones 64).
  rewrite Z.land_ones by lia.
  change (256 ^ Z.of_nat 8) with (2 ^ 64). apply Z.mod_mod. lia.
Qed.

Lemma length_int_to_bytes8 (n : Z) : length (int_to_bytes8 n) = 16%nat.
Proof. apply length_hex_of. Qed.

Lemma zero_field : replicate 16 "0"%char = int_to_bytes8 0.
Proof. reflexivity. Qed.

End HexBytes.

(** ** The generator's loops *)

Section Generator.

Context (rates : gmap Z Z) (sorted_bps : list Z).

Lemma mapM_ok_fmap {A B} (f : A -> result B) (g : A -> B) (l : list A) :
  (forall a, a ∈ l -> f a = Ok (g a)) -> mapM f l = Ok (g <$> l).
Proof.
  induction l as [|a l IH]; intros Hf; [reflexivity|].
  cbn [mapM]. rewrite Hf by apply list_elem_of_here. cbn [bind].
  rewrite IH by (intros b Hb; apply Hf; now apply list_elem_of_further).
  reflexivity.
Qed.

Lemma mapM_err_inv {A B} (f : A -> result B) (l : list A) (e : error) :
  mapM f l = Err e -> exists a, a ∈ l /\ f a = Err e.
Proof.
  induction l as [|a l IH]; [discriminate|]. cbn [mapM].
  destruct (f a) as [b|e'] eqn:Hfa; cbn [bind].
  - destruct (mapM f l) as [bs|e'] eqn:Hl; [discriminate|]. cbn [bind].
    intros [= ->]. destruct (IH eq_refl) as (a' & Hin & Ha').
    exists a'. split; [now apply list_elem_of_further | assumption].
  - intros [= ->]. exists a. split; [apply list_elem_of_here | assumption].
Qed.

Lemma mapM_fails {A B} (f : A -> result B) (l : list A) (a : A) :
  a ∈ l -> is_ok (f a) = false -> is_ok (mapM f l) = false.
Proof.
  induction l as [|a' l IH]; intros Hin Hfa.
  - now apply elem_of_nil in Hin.
  - cbn [mapM]. apply elem_of_cons in Hin as [<-|Hin].
    + now destruct (f a).
    + destruct (f a'); [|reflexivity]. cbn [bind].
      specialize (IH Hin Hfa). now destruct (mapM f l).
Qed.

Lemma hex_rate_ok (k : nat) :
  (forall b, b ∈ sorted_bps -> rates !!! b - RAY < 2 ^ 64) ->
  hex_rate rates sorted_bps k = Ok (field_at rates sorted_bps k).
Proof.
  intros Hfit. unfold hex_rate, field_at.
  destruct (Nat.ltb_spec k (length sorted_bps)) as [Hk|]; [|reflexivity].
  change (Z.shiftl 1 64) with (2 ^ 64).
  pose proof (Hfit _ (list_elem_of_lookup_total_2 sorted_bps k Hk)) as Hb.
  unfold Z.geb. destruct (Z.compare_spec (rates !!! (sorted_bps !!! k) - RAY)
                            (2 ^ 64)); (reflexivity || lia).
Qed.

(** The only exception of the inner loop is the [ValueError], raised for an
    entry of the mapping whose delta does not fit. *)
Lemma hex_rate_err (k : nat) (e : error) :
  hex_rate rates sorted_bps k = Err e ->
  exists b, b ∈ sorted_bps /\ 2 ^ 64 <= rates !!! b - RAY /\
            e = ValueError b (rates !!! b - RAY).
Proof.
  unfold hex_rate.
  destruct (Nat.ltb_spec k (length sorted_bps)) as [Hk|]; [|discriminate].
  change (Z.shiftl 1 64) with (2 ^ 64). unfold Z.geb.
  destruct (Z.compare_spec (rates !!! (sorted_bps !!! k) - RAY) (2 ^ 64));
    intros [= <-]; eexists; (split; [|split; [|reflexivity]]);
    try (now apply list_elem_of_lookup_total_2); lia.
Qed.

Lemma range_step_4 (len : nat) :
  range_step len 4 = (fun k => k * 4)%nat <$> seq 0 (word_count len).
Proof. reflexivity. Qed.

Lemma all_bytes_ok :
  (forall b, b ∈ sorted_bps -> rates !!! b - RAY < 2 ^ 64) ->
  all_bytes rates sorted_bps =
  Ok (concat ((fun i => (fun j => field_at rates sorted_bps (i + j))
                          <$> seq 0 4)
              <$> range_step (length sorted_bps) 4)).
Proof.
  intros Hfit. unfold all_bytes.
  rewrite (mapM_ok_fmap _ (fun i => (fun j => field_at rates sorted_bps (i + j))
                                      <$> seq 0 4)); [reflexivity|].
  intros i _. unfold word_rates. apply mapM_ok_fmap.
  intros j _. now apply hex_rate_ok.
Qed.

Lemma all_bytes_err (e : error) :
  all_bytes rates sorted_bps = Err e ->
  exists b, b ∈ sorted_bps /\ 2 ^ 64 <= rates !!! b - RAY /\
            e = ValueError b (rates !!! b - RAY).
Proof.
  unfold all_bytes.
  destruct (mapM _ _) as [ws|e'] eqn:Hm; [discriminate|]. cbn [bind].
  intros [= ->]. apply mapM_err_inv in Hm as (i & _ & Hi).
  unfold word_rates in Hi. apply mapM_err_inv in Hi as (j & _ & Hj).
  now apply hex_rate_err in Hj.
Qed.

(** An entry whose delta does not fit makes the loops raise. *)
Lemma all_bytes_fails (b : Z) :
  b ∈ sorted_bps -> 2 ^ 64 <= rates !!! b - RAY ->
  is_ok (all_bytes rates sorted_bps) = false.
Proof.
  intros Hin Hbig.
  apply list_elem_of_lookup_total_1 in Hin as (k & Hk & Hb).
  assert (Hword : is_ok (mapM (word_rates rates sorted_bps)
                              (range_step (length sorted_bps) 4)) = false).
  { apply (mapM_fails _ _ (k / 4 * 4)%nat).
    - rewrite range_step_4. apply list_elem_of_fmap_2' with (x := (k / 4)%nat);
        [|reflexivity].
      apply elem_of_seq. unfold word_count. split; [lia|]. cbn [Nat.add].
      apply Nat.Div0.div_lt_upper_bound.
      pose proof (Nat.div_mod_eq (length sorted_bps + 4 - 1) 4).
      pose proof (Nat.mod_upper_bound (length sorted_bps + 4 - 1) 4).
      lia.
    - unfold word_rates. apply (mapM_fails _ _ (k mod 4)%nat).
      + apply elem_of_seq. pose proof (Nat.mod_upper_bound k 4). lia.
      + replace (k / 4 * 4 + k mod 4)%nat with k
          by (pose proof (Nat.div_mod_eq k 4); lia).
        unfold hex_rate.
        destruct (Nat.ltb_spec k (length sorted_bps)); [|lia].
        rewrite Hb. change (Z.shiftl 1 64) with (2 ^ 64). unfold Z.geb.
        destruct (Z.compare_spec (rates !!! b - RAY) (2 ^ 64));
          (reflexivity || lia). }
  unfold all_bytes. now destruct (mapM _ _).
Qed.

End Generator.

(** ** The packed bytes, word by word *)

Section Layout.

Lemma concat_concat_fmap {A} (L : list (list (list A))) :
  concat (concat L) = concat ((fun l => concat l) <$> L).
Proof.
  induction L as [|l L IH]; [reflexivity|].
  cbn [concat fmap list_fmap]. now rewrite concat_app, IH.
Qed.

Lemma unhex_concat (n : nat) (L : list hexstr) :
  Forall (fun s => length s = (2 * n)%nat) L ->
  unhex (concat L) = concat (unhex <$> L).
Proof.
  induction 1 as [|s L Hs _ IH]; [reflexivity|].
  cbn [concat fmap list_fmap]. now rewrite (unhex_app_even n), IH.
Qed.

(** In a concatenation of chunks of one length, the [w]-th window of that
    length is the [w]-th chunk. *)
Lemma chunk_at {A} (g : nat -> list A) (n : nat) (pad : list A) :
  (forall k, length (g k) = n) ->
  forall m a w, (w < m)%nat ->
  take n (drop (n * w) (concat (g <$> seq a m)) ++ pad) = g (a + w)%nat.
Proof.
  intros Hlen. induction m as [|m IH]; intros a w Hw; [lia|].
  cbn [seq fmap list_fmap concat]. destruct w as [|w].
  - rewrite Nat.mul_0_r, Nat.add_0_r, drop_0, <- app_assoc.
    now apply take_app_length'.
  - replace (n * S w)%nat with (n + n * w)%nat by lia.
    rewrite drop_app_add' by now rewrite Hlen.
    rewrite (IH (S a) w) by lia. f_equal. lia.
Qed.

Lemma length_chunks {A} (g : nat -> list A) (n : nat) :
  (forall k, length (g k) = n) ->
  forall m a, length (concat (g <$> seq a m)) = (n * m)%nat.
Proof.
  intros Hlen. induction m as [|m IH]; intros a; [cbn; lia|].
  cbn [seq fmap list_fmap concat]. rewrite length_app, Hlen, IH. lia.
Qed.

Context (rates : gmap Z Z) (sorted_bps : list Z).

Local Abbreviation field := (field_at rates sorted_bps).
Local Abbreviation delta := (stored_delta rates sorted_bps).
Local Abbreviation hexword := (hexword_at rates sorted_bps).

Lemma length_field (k : nat) : length (field k) = 16%nat.
Proof.
  unfold field_at. destruct (k <? length sorted_bps)%nat;
    [apply length_int_to_bytes8 | reflexivity].
Qed.

Lemma field_value (k : nat) : be_value (unhex (field k)) = delta k.
Proof.
  unfold field_at, stored_delta. destruct (k <? length sorted_bps)%nat;
    [apply int_to_bytes8_value | reflexivity].
Qed.

Lemma delta_range (k : nat) : 0 <= delta k < 2 ^ 64.
Proof.
  unfold stored_delta. destruct (k <? length sorted_bps)%nat;
    [apply Z.mod_pos_bound|]; lia.
Qed.

Lemma length_hexword (i : nat) : length (hexword i) = (2 * 32)%nat.
Proof. unfold hexword_at. rewrite !length_app, !length_field. reflexivity. Qed.

Lemma hexword_value (i : nat) :
  be_value (unhex (hexword i)) =
  ((delta i * 2 ^ 64 + delta (i + 1)) * 2 ^ 64 + delta (i + 2)) * 2 ^ 64
  + delta (i + 3).
Proof.
  unfold hexword_at.
  rewrite !(unhex_app_even 8) by apply length_field.
  rewrite !be_value_app, !length_app.
  rewrite !(length_unhex 8) by apply length_field.
  rewrite !field_value.
  change (256 ^ Z.of_nat (8 + (8 + 8))) with (2 ^ 64 * 2 ^ 64 * 2 ^ 64).
  change (256 ^ Z.of_nat (8 + 8)) with (2 ^ 64 * 2 ^ 64).
  change (256 ^ Z.of_nat 8) with (2 ^ 64). ring.
Qed.

Lemma fields_of_word (i : nat) :
  concat ((fun j => field (i + j)) <$> seq 0 4) = hexword i.
Proof.
  unfold hexword_at. cbn [seq fmap list_fmap concat].
  now rewrite Nat.add_0_r, app_nil_r.
Qed.

(** The digits that the loops produce, as a sequence of words. *)
Lemma generated_hex :
  concat (concat ((fun i => (fun j => field (i + j)) <$> seq 0 4)
                  <$> range_step (length sorted_bps) 4)) =
  concat ((fun w => hexword (w * 4)) <$>
          seq 0 (word_count (length sorted_bps))).
Proof.
  rewrite concat_concat_fmap, range_step_4, <- !list_fmap_compose.
  f_equal. apply list_fmap_ext. intros _ w _. apply fields_of_word.
Qed.

Lemma generated_bytes :
  unhex (concat ((fun w => hexword (w * 4)) <$>
                 seq 0 (word_count (length sorted_bps)))) =
  concat ((fun w => unhex (hexword (w * 4))) <$>
          seq 0 (word_count (length sorted_bps))).
Proof.
  rewrite (unhex_concat 32), <- list_fmap_compose; [reflexivity|].
  apply Forall_fmap, Forall_forall. intros w _. apply length_hexword.
Qed.

Lemma length_generated_bytes :
  length (concat ((fun w => unhex (hexword (w * 4))) <$>
                  seq 0 (word_count (length sorted_bps)))) =
  (32 * word_count (length sorted_bps))%nat.
Proof.
  apply length_chunks. intros k. apply (length_unhex 32), length_hexword.
Qed.

(** The storage word with index [w] holds the four deltas of the positions
    [4 * w] to [4 * w + 3], the first one in the most significant bytes. *)
Lemma generated_data_word (w : nat) :
  (w < word_count (length sorted_bps))%nat ->
  data_word (concat ((fun w => unhex (hexword (w * 4))) <$>
                     seq 0 (word_count (length sorted_bps)))) w =
  ((delta (w * 4) * 2 ^ 64 + delta (w * 4 + 1)) * 2 ^ 64
   + delta (w * 4 + 2)) * 2 ^ 64 + delta (w * 4 + 3).
Proof.
  intros Hw. unfold data_word.
  rewrite (chunk_at (fun w => unhex (hexword (w * 4))) 32 _) with (a := 0%nat);
    [apply hexword_value | | assumption].
  intros k. apply (length_unhex 32), length_hexword.
Qed.

End Layout.

(** ** Reading the packed table *)

Section Lookup.

Import EVM.

(** Shifting and masking a word of four 64-bit fields returns the fields. *)
Lemma extract_field (a b c d : Z) :
  0 <= a < 2 ^ 64 -> 0 <= b < 2 ^ 64 -> 0 <= c < 2 ^ 64 -> 0 <= d < 2 ^ 64 ->
  let W := ((a * 2 ^ 64 + b) * 2 ^ 64 + c) * 2 ^ 64 + d in
  Z.land (Z.shiftr W 192) 0xFFFFFFFFFFFFFFFF = a /\
  Z.land (Z.shiftr W 128) 0xFFFFFFFFFFFFFFFF = b /\
  Z.land (Z.shiftr W 64) 0xFFFFFFFFFFFFFFFF = c /\
  Z.land (Z.shiftr W 0) 0xFFFFFFFFFFFFFFFF = d /\
  0 <= W < modulus.
Proof.
  intros Ha Hb Hc Hd W. change 0xFFFFFFFFFFFFFFFF with (Z.ones 64).
  rewrite !Z.land_ones, !Z.shiftr_div_pow2 by lia.
  assert (H192 : W / 2 ^ 192 = a)
    by (symmetry; apply Z.div_unique with (r := (b * 2 ^ 64 + c) * 2 ^ 64 + d);
        subst W; lia).
  assert (H128 : W / 2 ^ 128 = a * 2 ^ 64 + b)
    by (symmetry; apply Z.div_unique with (r := c * 2 ^ 64 + d);
        subst W; lia).
  assert (H64 : W / 2 ^ 64 = (a * 2 ^ 64 + b) * 2 ^ 64 + c)
    by (symmetry; apply Z.div_unique with (r := d); subst W; lia).
  rewrite H192, H128, H64, Z.pow_0_r, Z.div_1_r.
  repeat split.
  - apply Z.mod_small. lia.
  - symmetry. apply Z.mod_unique with (q := a); lia.
  - symmetry. apply Z.mod_unique with (q := a * 2 ^ 64 + b); lia.
  - symmetry. apply Z.mod_unique with (q := (a * 2 ^ 64 + b) * 2 ^ 64 + c);
      subst W; lia.
  - subst W. lia.
  - subst W. rewrite modulus_eq. lia.
Qed.

Context (rates : gmap Z Z) (sorted_bps : list Z).

Local Abbreviation words := (word_count (length sorted_bps)).

(** What [turn] returns on a table of the generated form, for every index
    that passes the range check: the stored delta of the position equal to
    [bps], or zero beyond the packed words, plus [RAY]. *)
Lemma turn_packed (c : Conv) (bps : Z) :
  RATES_hex c = concat ((fun w => hexword_at rates sorted_bps (w * 4)) <$>
                        seq 0 words) ->
  (0 < words)%nat ->
  0 <= bps <= MAX c -> bps < 2 ^ 253 ->
  turn c bps =
  Ok (RAY + (if bps <? 4 * Z.of_nat words
             then stored_delta rates sorted_bps (Z.to_nat bps) else 0)).
Proof.
  intros Hhex Hwords Hbps Hsmall. unfold turn.
  destruct (Z.leb_spec bps (MAX c)) as [_|]; [|lia]. cbn [negb].
  assert (Hoff : mul bps 8 = bps * 8)
    by (apply mul_small; rewrite modulus_eq; lia).
  rewrite Hoff. unfold div, mod_. cbn [Z.eqb].
  pose proof (Z.div_mod bps 4 ltac:(lia)) as Hqj.
  pose proof (Z.mod_pos_bound bps 4 ltac:(lia)) as Hj.
  assert (Hq : 0 <= bps / 4) by (apply Z.div_pos; lia).
  set (q := bps / 4) in *. set (j := bps mod 4) in *.
  assert (Hword : bps * 8 / 32 = q)
    by (symmetry; apply Z.div_unique with (r := j * 8); lia).
  assert (Hbyte : (bps * 8) mod 32 = j * 8)
    by (symmetry; apply Z.mod_unique with (q := q); lia).
  rewrite Hword, Hbyte.
  assert (Hslot : add dataSlot q = dataSlot + q)
    by (apply add_small; unfold dataSlot; rewrite modulus_eq; lia).
  rewrite Hslot.
  assert (Hshift : mul (sub 24 (j * 8)) 8 = 192 - 64 * j).
  { unfold sub. rewrite (Z.mod_small (24 - j * 8))
      by (rewrite modulus_eq; lia).
    rewrite mul_small by (rewrite modulus_eq; lia). lia. }
  rewrite Hshift. unfold shr.
  destruct (Z.ltb_spec (192 - 64 * j) 256) as [_|]; [|lia].
  unfold sload. rewrite Hhex, generated_bytes, length_generated_bytes.
  destruct (Z.eqb_spec (dataSlot + q) 0) as [H0|_];
    [unfold dataSlot in H0; lia|].
  destruct (Z.leb_spec 32 (Z.of_nat (32 * words))) as [_|]; [|lia].
  destruct (Z.leb_spec dataSlot (dataSlot + q)) as [_|]; [|lia].
  replace ((Z.of_nat (32 * words) + 31) / 32) with (Z.of_nat words)
    by (apply Z.div_unique with (r := 31); lia).
  cbn [andb].
  destruct (Z.ltb_spec (dataSlot + q) (dataSlot + Z.of_nat words)) as [Hin|Hout].
  - destruct (Z.ltb_spec bps (4 * Z.of_nat words)) as [_|]; [|lia].
    replace (dataSlot + q - dataSlot) with q by lia.
    rewrite generated_data_word by lia.
    pose proof (delta_range rates sorted_bps (Z.to_nat q * 4)) as Ha.
    pose proof (delta_range rates sorted_bps (Z.to_nat q * 4 + 1)) as Hb.
    pose proof (delta_range rates sorted_bps (Z.to_nat q * 4 + 2)) as Hc.
    pose proof (delta_range rates sorted_bps (Z.to_nat q * 4 + 3)) as Hd.
    destruct (extract_field _ _ _ _ Ha Hb Hc Hd) as (E0 & E1 & E2 & E3 & _).
    cbv zeta in E0, E1, E2, E3. unfold and.
    assert (Hcase : j = 0 \/ j = 1 \/ j = 2 \/ j = 3) by lia.
    destruct Hcase as [Hj0|[Hj0|[Hj0|Hj0]]]; rewrite Hj0 in *.
    + change (192 - 64 * 0) with 192.
      rewrite E0. replace (Z.to_nat bps) with (Z.to_nat q * 4)%nat by lia.
      rewrite add_small, Z.add_comm; [reflexivity|].
      rewrite modulus_eq, RAY_eq. lia.
    + change (192 - 64 * 1) with 128.
      rewrite E1. replace (Z.to_nat bps) with (Z.to_nat q * 4 + 1)%nat by lia.
      rewrite add_small, Z.add_comm; [reflexivity|].
      rewrite modulus_eq, RAY_eq. lia.
    + change (192 - 64 * 2) with 64.
      rewrite E2. replace (Z.to_nat bps) with (Z.to_nat q * 4 + 2)%nat by lia.
      rewrite add_small, Z.add_comm; [reflexivity|].
      rewrite modulus_eq, RAY_eq. lia.
    + change (192 - 64 * 3) with 0.
      rewrite E3. replace (Z.to_nat bps) with (Z.to_nat q * 4 + 3)%nat by lia.
      rewrite add_small, Z.add_comm; [reflexivity|].
      rewrite modulus_eq, RAY_eq. lia.
  - destruct (Z.ltb_spec bps (4 * Z.of_nat words)) as [|_]; [lia|].
    rewrite Z.shiftr_0_l. reflexivity.
Qed.

End Lookup.

(** ** The mapping and its sorted keys *)

Section Mapping.

Lemma elem_of_sorted_keys (rates : gmap Z Z) (b : Z) :
  b ∈ sorted_keys rates <-> is_Some (rates !! b).
Proof.
  unfold sorted_keys.
  now rewrite merge_sort_Permutation, elem_of_elements, elem_of_dom.
Qed.

Lemma Sorted_seqZ (k : nat) : forall m, Sorted Z.le (seqZ m (Z.of_nat k)).
Proof.
  induction k as [|k IH]; intros m; [constructor|].
  rewrite seqZ_cons by lia.
  replace (Z.pred (Z.of_nat (S k))) with (Z.of_nat k) by lia.
  constructor; [apply IH|].
  destruct k as [|k]; [constructor|].
  rewrite seqZ_cons by lia. constructor. lia.
Qed.

(** The sorted keys of a mapping defined exactly on [0 .. n-1]. *)
Lemma sorted_keys_dense (rates : gmap Z Z) (n : Z) :
  0 <= n -> dom rates = list_to_set (seqZ 0 n) ->
  sorted_keys rates = seqZ 0 n.
Proof.
  intros Hn Hdom. apply (Sorted_unique Z.le).
  - apply Sorted_merge_sort; apply _.
  - rewrite <- (Z2Nat.id n Hn). apply Sorted_seqZ.
  - unfold sorted_keys. rewrite merge_sort_Permutation.
    apply NoDup_Permutation; [apply NoDup_elements | apply NoDup_seqZ |].
    intros b. now rewrite elem_of_elements, Hdom, elem_of_list_to_set.
Qed.

Lemma parse_keys_le (max_bps : Z) (lines : list (Z * Z)) :
  forall b, is_Some (parse_rates_mapping lines max_bps !! b) -> b <= max_bps.
Proof.
  unfold parse_rates_mapping.
  assert (Hgen : forall acc : gmap Z Z,
             (forall b, is_Some (acc !! b) -> b <= max_bps) ->
             forall b,
               is_Some (foldl (fun rates '(bps, rate) =>
                                 if bps <=? max_bps
                                 then <[bps := rate]> rates else rates)
                              acc lines !! b) -> b <= max_bps).
  { induction lines as [|[bps rate] lines IH]; intros acc Hacc b;
      [apply Hacc|].
    cbn [foldl]. apply IH. intros b'.
    destruct (Z.leb_spec bps max_bps) as [Hle|_]; [|apply Hacc].
    rewrite lookup_insert_is_Some. intros [<-|[_ Hb']]; [assumption|].
    now apply Hacc. }
  apply Hgen. intros b. rewrite lookup_empty. now intros [? ?].
Qed.

(** Without an offending delta the generator returns the table in its
    closed form, with the largest key as [MAX]. *)
Lemma generate_from_ok (rates : gmap Z Z) (b0 : Z) :
  is_Some (rates !! b0) ->
  map_Forall (fun _ r => r - RAY < 2 ^ 64) rates ->
  exists mx,
    last (sorted_keys rates) = Some mx /\
    generate_from rates =
    Ok {| MAX := mx;
          rate_count := length (sorted_keys rates);
          RATES_hex :=
            concat ((fun w => hexword_at rates (sorted_keys rates) (w * 4))
                    <$> seq 0 (word_count (length (sorted_keys rates)))) |}.
Proof.
  intros Hb0 Hfit. apply elem_of_sorted_keys in Hb0.
  assert (Hne : sorted_keys rates <> []) by (intros E; rewrite E in Hb0;
                                             now apply elem_of_nil in Hb0).
  destruct (proj2 (last_is_Some _) Hne) as [mx Hlast].
  destruct (proj2 (head_is_Some _) Hne) as [mn Hhead].
  exists mx. split; [assumption|].
  unfold generate_from. rewrite Hhead, Hlast. cbn [bind].
  rewrite all_bytes_ok.
  - cbn [bind]. now rewrite generated_hex.
  - intros b Hb. apply elem_of_sorted_keys in Hb as [r Hr].
    rewrite (lookup_total_correct _ _ _ Hr).
    apply (map_Forall_lookup_1 _ _ _ _ Hfit Hr).
Qed.

Lemma generate_from_err (rates : gmap Z Z) (b r : Z) :
  rates !! b = Some r -> 2 ^ 64 <= r - RAY ->
  exists b' d,
    generate_from rates = Err (ValueError b' d) /\
    2 ^ 64 <= d /\ rates !! b' = Some (d + RAY).
Proof.
  intros Hr Hbig.
  assert (Hin : b ∈ sorted_keys rates)
    by (apply elem_of_sorted_keys; now exists r).
  assert (Hne : sorted_keys rates <> []) by (intros E; rewrite E in Hin;
                                             now apply elem_of_nil in Hin).
  destruct (proj2 (last_is_Some _) Hne) as [mx Hlast].
  destruct (proj2 (head_is_Some _) Hne) as [mn Hhead].
  unfold generate_from. rewrite Hhead, Hlast. cbn [bind].
  pose proof (all_bytes_fails rates (sorted_keys rates) b Hin) as Hfail.
  rewrite (lookup_total_correct _ _ _ Hr) in Hfail. specialize (Hfail Hbig).
  destruct (all_bytes rates (sorted_keys rates)) as [fs|e] eqn:Hall;
    [discriminate|].
  apply all_bytes_err in Hall as (b' & Hb' & Hd & ->).
  exists b', (rates !!! b' - RAY). cbn [bind]. split; [reflexivity|].
  split; [assumption|].
  apply elem_of_sorted_keys in Hb' as [r' Hr'].
  rewrite (lookup_total_correct _ _ _ Hr'), Hr'. f_equal. lia.
Qed.

(** The round trip through a dense table, for deltas of either sign: the
    lookup returns [RAY] plus the delta reduced modulo [2^64]. *)
Lemma turn_dense (lines : list (Z * Z)) (m : Z) :
  0 <= m ->
  dom (parse_rates_mapping lines 5000) = list_to_set (seqZ 0 (m + 1)) ->
  map_Forall (fun _ r => r - RAY < 2 ^ 64) (parse_rates_mapping lines 5000) ->
  exists c,
    generate_contract lines = Ok c /\ MAX c = m /\
    forall bps r, parse_rates_mapping lines 5000 !! bps = Some r ->
                  turn c bps = Ok (RAY + (r - RAY) mod 2 ^ 64).
Proof.
  intros Hm Hdom Hfit. unfold generate_contract.
  set (rates := parse_rates_mapping lines 5000) in *.
  assert (Hkey : forall b, is_Some (rates !! b) <-> 0 <= b <= m).
  { intros b. rewrite <- elem_of_dom, Hdom, elem_of_list_to_set, elem_of_seqZ.
    lia. }
  assert (Hmax : m <= 5000)
    by (apply (parse_keys_le 5000 lines), Hkey; lia).
  pose proof (sorted_keys_dense rates (m + 1) ltac:(lia) Hdom) as Hsorted.
  destruct (generate_from_ok rates 0) as (mx & Hlast & Hgen);
    [apply Hkey; lia | assumption |].
  rewrite Hsorted in Hlast, Hgen.
  assert (Hmx : mx = m).
  { rewrite last_lookup, length_seqZ in Hlast.
    apply lookup_seqZ in Hlast. lia. }
  subst mx. eexists. split; [exact Hgen|]. split; [reflexivity|].
  intros bps r Hr.
  assert (Hb : 0 <= bps <= m) by (apply Hkey; now exists r).
  assert (Hlen : length (seqZ 0 (m + 1)) = Z.to_nat (m + 1))
    by apply length_seqZ.
  assert (Hwords : (length (seqZ 0 (m + 1)) <=
                    4 * word_count (length (seqZ 0 (m + 1))))%nat).
  { unfold word_count.
    pose proof (Nat.div_mod_eq (length (seqZ 0 (m + 1)) + 4 - 1) 4).
    pose proof (Nat.mod_upper_bound (length (seqZ 0 (m + 1)) + 4 - 1) 4).
    lia. }
  rewrite (turn_packed rates (seqZ 0 (m + 1))); cbn [MAX RATES_hex];
    [|reflexivity|lia|lia|lia].
  destruct (Z.ltb_spec bps (4 * Z.of_nat
              (word_count (length (seqZ 0 (m + 1)))))) as [_|]; [|lia].
  unfold stored_delta.
  destruct (Nat.ltb_spec (Z.to_nat bps) (length (seqZ 0 (m + 1)))); [|lia].
  rewrite lookup_total_seqZ_lt by lia.
  replace (0 + Z.of_nat (Z.to_nat bps)) with bps by lia.
  now rewrite (lookup_total_correct _ _ _ Hr).
Qed.

End Mapping.

(** ** The table: construction and lookup *)

Section TableClaims.

Import EVM.

(** C1: for a table built from a mapping that is defined exactly on
    [0 .. MAX], every rate at least [RAY] and every delta below [2^64], the
    build succeeds and [turn] returns, for every [bps] in [0 .. MAX],
    exactly the rate of the mapping. *)
Theorem turn_round_trip (lines : list (Z * Z)) (m : Z) :
  0 <= m ->
  dom (parse_rates_mapping lines 5000) = list_to_set (seqZ 0 (m + 1)) ->
  map_Forall (fun _ rate => RAY <= rate /\ rate - RAY < 2 ^ 64)
             (parse_rates_mapping lines 5000) ->
  exists c,
    generate_contract lines = Ok c /\ MAX c = m /\
    forall bps, 0 <= bps <= m ->
      exists rate, parse_rates_mapping lines 5000 !! bps = Some rate /\
                   turn c bps = Ok rate.
Proof.
  intros Hm Hdom Hfit.
  destruct (turn_dense lines m Hm Hdom) as (c & Hgen & Hmax & Hturn).
  { eapply map_Forall_impl; [exact Hfit|]. cbn. intros _ r [_ H]. exact H. }
  exists c. split; [assumption|]. split; [assumption|].
  intros bps Hbps.
  assert (Hsome : is_Some (parse_rates_mapping lines 5000 !! bps)).
  { rewrite <- elem_of_dom, Hdom, elem_of_list_to_set, elem_of_seqZ. lia. }
  destruct Hsome as [r Hr]. exists r. split; [assumption|].
  rewrite (Hturn bps r Hr).
  destruct (map_Forall_lookup_1 _ _ _ _ Hfit Hr) as [Hlo Hhi].
  rewrite Z.mod_small by lia. f_equal. lia.
Qed.

Lemma turn_round_trip_witness :
  exists c,
    generate_contract [(0, RAY); (1, RAY + 5); (2, RAY + 7)] = Ok c /\
    MAX c = 2 /\
    forall bps, 0 <= bps <= 2 ->
      exists rate,
        parse_rates_mapping [(0, RAY); (1, RAY + 5); (2, RAY + 7)] 5000
          !! bps = Some rate /\
        turn c bps = Ok rate.
Proof.
  apply (turn_round_trip [(0, RAY); (1, RAY + 5); (2, RAY + 7)] 2).
  - lia.
  - now vm_compute.
  - apply (bool_decide_unpack _). now vm_compute.
Defined.

(** C2, the claim as stated fails: in the table built from
    [{0: RAY, 100: RAY + 5}] the entry for 100 sits at position 1 of the
    only word, and [turn(100)] reads word 25, beyond the packed data, so it
    returns [RAY] and not [RAY + 5]. *)
Lemma turn_sample_100_is_not_packed_rate :
  generate_contract sample_lines = Ok sample_conv /\
  turn sample_conv 100 = Ok RAY /\
  turn sample_conv 100 <> Ok (RAY + 5).
Proof.
  split; [|split]; [now vm_compute | now vm_compute |].
  intros H. vm_compute in H. discriminate H.
Qed.

(** C2, amended: the table built from [{0: RAY, 100: RAY + 5}] has
    [MAX = 100] and one 32-byte word holding the deltas 0, 5, 0, 0 by
    position; the lookup reads the word with index [bps / 4]; [turn(0)]
    returns [RAY], [turn(1)] returns [RAY + 5], [turn(100)] returns [RAY],
    and [turn(101)] fails with the range check's revert. *)
Theorem sample_scenario (bps : Z) :
  0 <= bps <= 100 ->
  generate_contract sample_lines = Ok sample_conv /\
  MAX sample_conv = 100 /\
  length (unhex (RATES_hex sample_conv)) = 32%nat /\
  data_word (unhex (RATES_hex sample_conv)) 0 = 5 * 2 ^ 128 /\
  div (mul bps 8) 32 = bps / 4 /\
  turn sample_conv 0 = Ok RAY /\
  turn sample_conv 1 = Ok (RAY + 5) /\
  turn sample_conv 100 = Ok RAY /\
  turn sample_conv 101 = Err Revert.
Proof.
  intros Hbps. do 4 (split; [now vm_compute|]).
  split; [|do 3 (split; [now vm_compute|]); now vm_compute].
  rewrite mul_small by (rewrite modulus_eq; lia).
  unfold div. cbn [Z.eqb].
  symmetry. apply Z.div_unique with (r := bps mod 4 * 8).
  - pose proof (Z.mod_pos_bound bps 4). lia.
  - pose proof (Z.div_mod bps 4). lia.
Qed.

Lemma sample_scenario_witness :
  div (mul 100 8) 32 = 100 / 4 /\ turn sample_conv 1 = Ok (RAY + 5).
Proof.
  destruct (sample_scenario 100) as (_ & _ & _ & _ & Hw & _ & H1 & _);
    [lia|].
  split; assumption.
Defined.

(** C8: when an entry of the mapping has a delta [rate - RAY] of [2^64] or
    more, the generator raises its [ValueError], for such an entry, and so
    returns no contract and no packed bytes at all. *)
Theorem encoding_overflow_aborts (lines : list (Z * Z)) (b r : Z) :
  parse_rates_mapping lines 5000 !! b = Some r ->
  2 ^ 64 <= r - RAY ->
  exists b' d,
    generate_contract lines = Err (ValueError b' d) /\
    2 ^ 64 <= d /\
    parse_rates_mapping lines 5000 !! b' = Some (d + RAY).
Proof. intros Hr Hbig. now apply (generate_from_err _ b r). Qed.

Lemma encoding_overflow_aborts_witness :
  exists b' d,
    generate_contract [(0, RAY); (1, RAY + 2 ^ 64); (2, RAY + 7)]
      = Err (ValueError b' d) /\
    2 ^ 64 <= d /\
    parse_rates_mapping [(0, RAY); (1, RAY + 2 ^ 64); (2, RAY + 7)] 5000
      !! b' = Some (d + RAY).
Proof.
  apply (encoding_overflow_aborts
           [(0, RAY); (1, RAY + 2 ^ 64); (2, RAY + 7)] 1 (RAY + 2 ^ 64)).
  - now vm_compute.
  - lia.
Defined.

(** C9: [turn(bps)] fails, with the revert of its [require], exactly when
    [bps > MAX]; for every [bps <= MAX] it returns a 256-bit rate. *)
Theorem turn_range_check (c : Conv) (bps : Z) :
  (turn c bps = Err Revert <-> MAX c < bps) /\
  (bps <= MAX c -> exists rate, turn c bps = Ok rate /\ word rate).
Proof.
  unfold turn. destruct (Z.leb_spec bps (MAX c)) as [Hle|Hgt]; cbn [negb].
  - split; [split; [discriminate | lia]|].
    intros _. eexists. split; [reflexivity|].
    apply Z.mod_pos_bound. now vm_compute.
  - split; [split; [lia | reflexivity] | lia].
Qed.

Lemma turn_range_check_witness :
  turn sample_conv 101 = Err Revert /\
  exists rate, turn sample_conv 100 = Ok rate /\ word rate.
Proof.
  destruct (turn_range_check sample_conv 101) as [[_ Hrev] _].
  destruct (turn_range_check sample_conv 100) as [_ Hok].
  split; [apply Hrev | apply Hok]; cbn [MAX sample_conv]; lia.
Defined.

(** C10: a rate below [RAY] does not stop the build: the only check rejects
    deltas of [2^64] and more, the negative delta is encoded modulo [2^64]
    by the mask of [int_to_bytes8], and in a dense table the entry decodes
    to [RAY + (rate - RAY) mod 2^64], which is [rate + 2^64] for a rate less
    than [2^64] below [RAY]. *)
Theorem rate_below_ray_wraps (lines : list (Z * Z)) (m b r : Z) :
  0 <= m ->
  dom (parse_rates_mapping lines 5000) = list_to_set (seqZ 0 (m + 1)) ->
  map_Forall (fun _ rate => rate - RAY < 2 ^ 64)
             (parse_rates_mapping lines 5000) ->
  parse_rates_mapping lines 5000 !! b = Some r ->
  r < RAY ->
  exists c,
    generate_contract lines = Ok c /\
    hex_rate (parse_rates_mapping lines 5000)
             (sorted_keys (parse_rates_mapping lines 5000)) (Z.to_nat b)
      = Ok (int_to_bytes8 (r - RAY)) /\
    be_value (unhex (int_to_bytes8 (r - RAY))) = (r - RAY) mod 2 ^ 64 /\
    turn c b = Ok (RAY + (r - RAY) mod 2 ^ 64) /\
    (RAY - 2 ^ 64 <= r -> turn c b = Ok (r + 2 ^ 64)).
Proof.
  intros Hm Hdom Hfit Hr Hlow.
  destruct (turn_dense lines m Hm Hdom Hfit) as (c & Hgen & _ & Hturn).
  exists c. split; [assumption|].
  set (rates := parse_rates_mapping lines 5000) in *.
  assert (Hb : 0 <= b <= m).
  { assert (Hin : b ∈ dom rates) by (apply elem_of_dom; now exists r).
    rewrite Hdom, elem_of_list_to_set, elem_of_seqZ in Hin. lia. }
  pose proof (sorted_keys_dense rates (m + 1) ltac:(lia) Hdom) as Hsorted.
  split; [|split; [apply int_to_bytes8_value|split]].
  - rewrite hex_rate_ok.
    + unfold field_at. rewrite Hsorted, length_seqZ.
      destruct (Nat.ltb_spec (Z.to_nat b) (Z.to_nat (m + 1))); [|lia].
      rewrite lookup_total_seqZ_lt by lia.
      replace (0 + Z.of_nat (Z.to_nat b)) with b by lia.
      now rewrite (lookup_total_correct _ _ _ Hr).
    + intros b' Hb'. apply elem_of_sorted_keys in Hb' as [r' Hr'].
      rewrite (lookup_total_correct _ _ _ Hr').
      apply (map_Forall_lookup_1 _ _ _ _ Hfit Hr').
  - now apply Hturn.
  - intros Hnear. rewrite (Hturn b r Hr). f_equal.
    replace ((r - RAY) mod 2 ^ 64) with (r - RAY + 2 ^ 64); [lia|].
    apply Z.mod_unique with (q := -1); lia.
Qed.

Lemma rate_below_ray_wraps_witness :
  exists c,
    generate_contract [(0, RAY); (1, RAY - 1); (2, RAY + 7)] = Ok c /\
    turn c 1 = Ok (RAY - 1 + 2 ^ 64).
Proof.
  destruct (rate_below_ray_wraps
              [(0, RAY); (1, RAY - 1); (2, RAY + 7)] 2 1 (RAY - 1))
    as (c & Hgen & _ & _ & _ & Hnear).
  - lia.
  - now vm_compute.
  - apply (bool_decide_unpack _). now vm_compute.
  - now vm_compute.
  - rewrite RAY_eq. lia.
  - exists c. split; [assumption|]. apply Hnear. lia.
Defined.

End TableClaims.

(** ** The constants of the emitted text *)

Section TextClaims.

Import Text.

Local Open Scope string_scope.

(** C4, on the code: whatever table is filled in, the emitted text declares
    the two constants [MAX] and [RAY] and no other; [rtob], which is part of
    that text, refers to [BPS]; so the text uses a constant that it does not
    declare, under that name or as [BPS_SCALE]. *)
Theorem emitted_text_lacks_BPS (c : Conv) :
  declared_constants (contract_text c) = ["MAX"; "RAY"] /\
  In "    uint256 constant internal RAY = 10**27;" (contract_text c) /\
  In ("    uint256 constant public MAX = " ++ str (MAX c) ++ ";")
     (contract_text c) /\
  incl rtob_source (contract_text c) /\
  In "BPS" (referenced rtob_source) /\
  ~ In "BPS" (declared_constants (contract_text c)) /\
  ~ In "BPS_SCALE" (declared_constants (contract_text c)).
Proof.
  assert (Hdecl : declared_constants (contract_text c) = ["MAX"; "RAY"])
    by (now vm_compute).
  split; [exact Hdecl|]. rewrite Hdecl.
  split; [unfold contract_text, declarations; cbn; tauto|].
  split; [unfold contract_text, declarations; cbn; tauto|].
  split.
  { unfold contract_text. intros line Hline.
    apply in_or_app. right. apply in_or_app. right. apply in_or_app. right.
    apply in_or_app. right. apply in_or_app. right. apply in_or_app. left.
    exact Hline. }
  split; [vm_compute; tauto|].
  split; intros [H|[H|[]]]; discriminate.
Qed.

End TextClaims.

(** ** Laws of [_rpow] and [rtob] around unity *)

Section RpowLaws.

Import EVM.

Lemma word_up_to_ray (x : Z) : 0 <= x <= RAY -> word x.
Proof. unfold word. rewrite modulus_eq, RAY_eq. lia. Qed.

(** Below unity nothing overflows and the product stays below unity. *)
Lemma rmul_below_unity (a b : Z) :
  0 <= a <= RAY -> 0 <= b < RAY ->
  exists r, rmul_checked a b = Ok r /\ 0 <= r < RAY.
Proof.
  intros Ha Hb.
  assert (Hab : 0 <= a * b <= RAY * (RAY - 1)).
  { split; [nia|]. apply Z.mul_le_mono_nonneg; lia. }
  assert (Hh : RAY / 2 = 500000000000000000000000000) by reflexivity.
  unfold rmul_checked. rewrite Hh. rewrite RAY_eq in Hab.
  destruct (Z.leb_spec modulus (a * b)) as [Hov|_];
    [rewrite modulus_eq in Hov; lia|].
  destruct (Z.leb_spec modulus (a * b + 500000000000000000000000000))
    as [Hov|_]; [rewrite modulus_eq in Hov; lia|].
  eexists. split; [reflexivity|]. split.
  - apply Z.div_pos; [lia | reflexivity].
  - apply Z.div_lt_upper_bound; [reflexivity|]. rewrite RAY_eq. lia.
Qed.

Lemma rpow_loop_below_unity (n : positive) :
  forall x z, 0 <= x < RAY -> 0 <= z <= RAY ->
  exists r, rpow_loop n x z = Ok r /\ 0 <= r < RAY.
Proof.
  induction n as [n IH|n IH|]; intros x z Hx Hz; cbn [rpow_loop];
    rewrite nonzero_mod2, (rpow_square_spec x) by (apply word_up_to_ray; lia);
    destruct (rmul_below_unity x x) as (x' & -> & Hx'); try lia;
    cbn [bind Z.odd].
  - rewrite rpow_mulz_spec by (apply word_up_to_ray; lia).
    destruct (rmul_below_unity z x' Hz Hx') as (z' & -> & Hz'). cbn [bind].
    apply IH; lia.
  - now apply IH.
  - rewrite rpow_mulz_spec by (apply word_up_to_ray; lia).
    destruct (rmul_below_unity z x' Hz Hx') as (z' & -> & Hz'). cbn [bind].
    now exists z'.
Qed.

Lemma rpow_below_unity_aux (x n : Z) :
  0 <= x < RAY -> 1 <= n ->
  exists r, _rpow x n = Ok r /\ 0 <= r < RAY.
Proof.
  intros Hx Hn. unfold _rpow.
  destruct (Z.eqb_spec x 0) as [->|Hne].
  - destruct (Z.eqb_spec n 0); [lia|]. exists 0. split; [reflexivity|].
    rewrite RAY_eq. lia.
  - assert (Hdiv : 0 <= div n 2)
      by (unfold div; cbn [Z.eqb]; apply Z.div_pos; lia).
    assert (Hodd : div n 2 = 0 -> mod_ n 2 = 1).
    { unfold div, mod_. cbn [Z.eqb]. intros H0.
      pose proof (Z.div_mod n 2 ltac:(lia)).
      pose proof (Z.mod_pos_bound n 2 ltac:(lia)). lia. }
    destruct (div n 2) as [|p|p]; [|apply rpow_loop_below_unity|lia].
    + rewrite (Hodd eq_refl). cbn [Z.eqb]. exists x. split; [reflexivity|lia].
    + lia.
    + destruct (mod_ n 2 =? 0); lia.
Qed.

(** At or above unity a product that goes through is no smaller than
    either factor. *)
Lemma rmul_grows (a b r : Z) :
  RAY <= a -> RAY <= b -> rmul_checked a b = Ok r -> a <= r /\ b <= r.
Proof.
  intros Ha Hb. unfold rmul_checked.
  destruct (Z.leb_spec modulus (a * b)); [discriminate|].
  destruct (Z.leb_spec modulus (a * b + RAY / 2)); [discriminate|].
  intros [= <-].
  assert (Hh : 0 <= RAY / 2) by (now vm_compute).
  assert (Hr : 0 < RAY) by reflexivity.
  split; apply Z.div_le_lower_bound; try assumption; nia.
Qed.

Lemma rpow_loop_grows (n : positive) :
  forall x z r, word x -> word z -> RAY <= x -> RAY <= z ->
  rpow_loop n x z = Ok r -> x <= r /\ z <= r.
Proof.
  induction n as [n IH|n IH|]; intros x z r Wx Wz Hx Hz; cbn [rpow_loop];
    rewrite nonzero_mod2, (rpow_square_spec x Wx);
    destruct (rmul_checked x x) as [x'|e] eqn:Hsq; cbn [bind Z.odd];
    try discriminate;
    destruct (rmul_grows x x x' Hx Hx Hsq) as [Hxx' _];
    assert (Wx' : word x')
      by (apply small_is_word, (rmul_checked_word x x);
          unfold word in Wx; (lia || assumption)).
  - rewrite (rpow_mulz_spec z x' Wz Wx').
    destruct (rmul_checked z x') as [z'|e] eqn:Hm; cbn [bind];
      [|discriminate].
    destruct (rmul_grows z x' z' Hz ltac:(lia) Hm) as [Hzz' _].
    intros Hloop. apply IH in Hloop; try lia; try assumption.
    apply small_is_word, (rmul_checked_word z x');
      unfold word in *; (lia || assumption).
  - intros Hloop. apply IH in Hloop; try lia; assumption.
  - rewrite (rpow_mulz_spec z x' Wz Wx').
    destruct (rmul_checked z x') as [z'|e] eqn:Hm; cbn [bind];
      [|discriminate].
    destruct (rmul_grows z x' z' Hz ltac:(lia) Hm) as [Hzz' Hxz'].
    intros [= <-]. lia.
Qed.

Lemma rpow_grows_aux (x n r : Z) :
  word x -> RAY <= x -> 0 <= n -> _rpow x n = Ok r ->
  RAY <= r /\ (1 <= n -> x <= r).
Proof.
  intros Wx Hx Hn. unfold _rpow.
  assert (HR : 0 < RAY) by reflexivity.
  destruct (Z.eqb_spec x 0) as [->|_]; [lia|].
  assert (Hdiv : 0 <= div n 2)
    by (unfold div; cbn [Z.eqb]; apply Z.div_pos; lia).
  assert (Hcases : div n 2 = 0 -> (n = 0 /\ mod_ n 2 = 0)
                                   \/ (n = 1 /\ mod_ n 2 = 1)).
  { unfold div, mod_. cbn [Z.eqb]. intros H0.
    pose proof (Z.div_mod n 2 ltac:(lia)).
    pose proof (Z.mod_pos_bound n 2 ltac:(lia)). lia. }
  destruct (div n 2) as [|p|p]; [| |lia].
  - destruct (Hcases eq_refl) as [[-> ->]|[-> ->]]; cbn [Z.eqb];
      intros [= <-]; lia.
  - intros Hloop. apply rpow_loop_grows in Hloop; try assumption.
    + destruct (mod_ n 2 =? 0); lia.
    + destruct (mod_ n 2 =? 0); [apply word_up_to_ray; lia | assumption].
    + destruct (mod_ n 2 =? 0); lia.
Qed.

Lemma rpow_loop_unity (n : positive) : rpow_loop n RAY RAY = Ok RAY.
Proof.
  induction n as [n IH|n IH|]; cbn [rpow_loop]; rewrite nonzero_mod2;
    change (rpow_square RAY) with (Ok RAY); cbn [bind Z.odd];
    try change (rpow_mulz RAY RAY) with (Ok RAY); cbn [bind];
    (assumption || reflexivity).
Qed.

(** With a zero base the loop ends in zero: its last pass multiplies [z]
    by the zero base. *)
Lemma rpow_loop_zero (n : positive) :
  forall z, word z -> rpow_loop n 0 z = Ok 0.
Proof.
  assert (Hmul : forall z, word z -> rpow_mulz z 0 = Ok 0).
  { intros z Wz. rewrite rpow_mulz_spec; [|assumption|now vm_compute].
    unfold rmul_checked. now rewrite Z.mul_0_r. }
  induction n as [n IH|n IH|]; intros z Wz; cbn [rpow_loop];
    rewrite nonzero_mod2; change (rpow_square 0) with (Ok 0);
    cbn [bind Z.odd]; rewrite ?(Hmul z Wz); cbn [bind].
  - apply IH. now vm_compute.
  - now apply IH.
  - reflexivity.
Qed.

(** Multiplying unity by a freshly squared base returns that base. *)
Lemma rmul_unity_square (x x' : Z) :
  word x -> rmul_checked x x = Ok x' -> rmul_checked RAY x' = Ok x'.
Proof.
  intros Wx. unfold rmul_checked at 1.
  destruct (Z.leb_spec modulus (x * x)) as [|Hsq]; [discriminate|].
  destruct (Z.leb_spec modulus (x * x + RAY / 2)); [discriminate|].
  intros [= <-].
  assert (Hx : x <= 2 ^ 128 - 1).
  { destruct (Z.le_gt_cases x (2 ^ 128 - 1)) as [|Hbig]; [assumption|].
    assert (2 ^ 128 * 2 ^ 128 <= x * x) by (apply Z.mul_le_mono_nonneg; lia).
    rewrite modulus_eq in Hsq. lia. }
  assert (Hxx : 0 <= x * x <= (2 ^ 128 - 1) * (2 ^ 128 - 1))
    by (split; [nia | apply Z.mul_le_mono_nonneg; unfold word in Wx; lia]).
  assert (Hh : RAY / 2 = 500000000000000000000000000) by reflexivity.
  rewrite Hh in *. set (q := (x * x + 500000000000000000000000000) / RAY).
  assert (HR : 0 < RAY) by reflexivity.
  assert (Hq0 : 0 <= q) by (subst q; apply Z.div_pos; lia).
  assert (Hq1 : RAY * q <= x * x + 500000000000000000000000000)
    by (subst q; apply Z.mul_div_le; exact HR).
  unfold rmul_checked. rewrite Hh.
  destruct (Z.leb_spec modulus (RAY * q)) as [Hov|_].
  { rewrite modulus_eq in Hov. lia. }
  destruct (Z.leb_spec modulus (RAY * q + 500000000000000000000000000))
    as [Hov|_].
  { rewrite modulus_eq in Hov. lia. }
  f_equal. symmetry.
  apply Z.div_unique with (r := 500000000000000000000000000).
  - rewrite RAY_eq. lia.
  - reflexivity.
Qed.

End RpowLaws.

(** ** [_rpow] and [rtob]: further properties *)

Section RpowExtras.

Import EVM.

Lemma mod2_is_zero (n : Z) : (mod_ n 2 =? 0) = negb (Z.odd n).
Proof.
  rewrite <- nonzero_mod2. unfold nonzero. now rewrite negb_involutive.
Qed.

(** Once the power step has produced a yearly rate of at least [RAY], the
    checked arithmetic of [rtob] goes through. *)
Lemma rtob_after_pow (ray y : Z) :
  word ray -> _rpow ray days_365 = Ok y -> RAY <= y ->
  rtob ray = Ok (((y - RAY) * 10000 + RAY / 2) / RAY).
Proof.
  intros Hray Hpow Hge. unfold rtob. rewrite Hpow. cbn [bind].
  unfold checked_sub.
  destruct (Z.ltb_spec y RAY) as [|_]; [lia|]. cbn [bind].
  apply rpow_result_bound in Hpow; [|assumption|now vm_compute].
  assert (Hc : (modulus - 1) / RAY =
               115792089237316195423570985008687907853269984665640)
    by reflexivity.
  rewrite Hc in Hpow. rewrite RAY_eq in Hge.
  unfold checked_mul, BPS.
  destruct (Z.leb_spec modulus ((y - RAY) * 10000)) as [Hov|_].
  { rewrite modulus_eq, RAY_eq in Hov. lia. }
  cbn [bind]. change (checked_div RAY 2) with (Ok (RAY / 2)). cbn [bind].
  unfold checked_add.
  destruct (Z.leb_spec modulus ((y - RAY) * 10000 + RAY / 2)) as [Hov|_].
  { rewrite modulus_eq, RAY_eq in Hov.
    change (1000000000000000000000000000 / 2)
      with 500000000000000000000000000 in Hov. lia. }
  cbn [bind]. unfold checked_div. now destruct (Z.eqb_spec RAY 0).
Qed.

(** X1: Unity is a fixed point of the power, and the zeroth power of every
    base, zero included, is unity. *)
Theorem rpow_unity_laws (x n : Z) :
  _rpow RAY n = Ok RAY /\ _rpow x 0 = Ok RAY.
Proof.
  split.
  - unfold _rpow. change (RAY =? 0) with false. cbn match.
    assert (Hz : (if mod_ n 2 =? 0 then RAY else RAY) = RAY)
      by now destruct (mod_ n 2 =? 0).
    rewrite Hz. destruct (div n 2); [reflexivity | | reflexivity].
    apply rpow_loop_unity.
  - unfold _rpow. now destruct (x =? 0).
Qed.

(** X2: A base below unity never overflows: every positive power succeeds and
    stays below unity. *)
Theorem rpow_below_unity (x n : Z) :
  0 <= x < RAY -> 1 <= n ->
  exists r, _rpow x n = Ok r /\ 0 <= r < RAY.
Proof. apply rpow_below_unity_aux. Qed.

Lemma rpow_below_unity_witness :
  exists r, _rpow (RAY - 1) days_365 = Ok r /\ 0 <= r < RAY.
Proof.
  apply (rpow_below_unity (RAY - 1) days_365).
  - rewrite RAY_eq. lia.
  - now vm_compute.
Defined.

(** X3: [rtob] rejects every rate below unity, zero included, with the
    arithmetic panic of its subtraction: the power step itself succeeds. *)
Theorem rtob_rejects_below_unity (ray : Z) :
  0 <= ray < RAY ->
  is_ok (_rpow ray days_365) = true /\ rtob ray = Err (Panic 0x11).
Proof.
  intros Hray.
  destruct (rpow_below_unity_aux ray days_365 Hray) as (y & Hpow & Hy);
    [now vm_compute|].
  unfold rtob. rewrite Hpow. split; [reflexivity|]. cbn [bind].
  unfold checked_sub. now destruct (Z.ltb_spec y RAY); [|lia].
Qed.

Lemma rtob_rejects_below_unity_witness :
  is_ok (_rpow 999999999000000000000000000 days_365) = true /\
  rtob 999999999000000000000000000 = Err (Panic 0x11).
Proof.
  apply (rtob_rejects_below_unity 999999999000000000000000000).
  rewrite RAY_eq. lia.
Defined.

(** X4: For a base of at least unity, compounding never loses: a power that
    succeeds is at least unity, and at least the base when the exponent is
    positive. *)
Theorem rpow_at_least_base (x n r : Z) :
  word x -> RAY <= x -> 0 <= n -> _rpow x n = Ok r ->
  RAY <= r /\ (1 <= n -> x <= r).
Proof. apply rpow_grows_aux. Qed.

Lemma rpow_at_least_base_witness :
  RAY <= 1049999999999999999961070145 /\
  (1 <= days_365 ->
   1000000001547125957863212448 <= 1049999999999999999961070145).
Proof.
  apply (rpow_at_least_base 1000000001547125957863212448 days_365).
  - unfold word. rewrite modulus_eq. lia.
  - rewrite RAY_eq. lia.
  - now vm_compute.
  - now vm_compute.
Defined.

(** X5: For a rate of at least unity [rtob] has no failure of its own: it
    returns the rounded basis points when the power step succeeds and
    reverts exactly when the power step reverts. *)
Theorem rtob_from_unity (ray : Z) :
  word ray -> RAY <= ray ->
  rtob ray =
    (yearly <- _rpow ray days_365 ;;
     Ok (((yearly - RAY) * 10000 + RAY / 2) / RAY)).
Proof.
  intros Hray Hge.
  destruct (_rpow ray days_365) as [y|e] eqn:Hpow.
  - cbn [bind]. apply rtob_after_pow; [assumption | assumption |].
    apply (rpow_grows_aux ray days_365 y); try assumption. now vm_compute.
  - unfold rtob. now rewrite Hpow.
Qed.

Lemma rtob_from_unity_witness :
  rtob (RAY + 2 ^ 64) =
    (yearly <- _rpow (RAY + 2 ^ 64) days_365 ;;
     Ok (((yearly - RAY) * 10000 + RAY / 2) / RAY)).
Proof.
  apply (rtob_from_unity (RAY + 2 ^ 64)).
  - unfold word. rewrite modulus_eq, RAY_eq. lia.
  - lia.
Defined.

(** X6: Halving an even exponent: [pow(x, 2 * n)] squares the base once, with
    its overflow check and rounding, and then is [pow] of that square to
    the [n]. *)
Theorem rpow_even_exponent (x n : Z) :
  word x -> 1 <= n ->
  _rpow x (2 * n) = (x' <- rpow_square x ;; _rpow x' n).
Proof.
  intros Wx Hn.
  destruct (Z.eq_dec x 0) as [->|Hne].
  { change (rpow_square 0) with (Ok 0). cbn [bind]. unfold _rpow.
    cbn [Z.eqb]. destruct (Z.eqb_spec (2 * n) 0); [lia|].
    now destruct (Z.eqb_spec n 0); [lia|]. }
  unfold _rpow at 1. destruct (Z.eqb_spec x 0) as [|_]; [contradiction|].
  assert (Hmod : mod_ (2 * n) 2 = 0).
  { unfold mod_. cbn [Z.eqb]. rewrite Z.mul_comm. apply Z.mod_mul. lia. }
  assert (Hdiv : div (2 * n) 2 = n).
  { unfold div. cbn [Z.eqb]. rewrite Z.mul_comm. apply Z.div_mul. lia. }
  rewrite Hmod, Hdiv. cbn [Z.eqb].
  destruct n as [|p|p]; try lia.
  rewrite rpow_loop_unfold, (rpow_square_spec x Wx).
  destruct (rmul_checked x x) as [x1|e] eqn:Hsq; [|reflexivity].
  cbn [bind].
  assert (Wx1 : word x1)
    by (apply small_is_word, (rmul_checked_word x x);
        unfold word in Wx; (lia || assumption)).
  assert (Hz : (if Z.odd (Z.pos p) then rpow_mulz RAY x1 else Ok RAY) =
               Ok (if Z.odd (Z.pos p) then x1 else RAY)).
  { destruct (Z.odd (Z.pos p)); [|reflexivity].
    rewrite rpow_mulz_spec;
      [|apply word_up_to_ray; rewrite RAY_eq; lia|assumption].
    now apply (rmul_unity_square x). }
  rewrite Hz. cbn [bind]. unfold _rpow.
  rewrite mod2_is_zero.
  destruct (Z.eqb_spec x1 0) as [->|_].
  - cbn [Z.eqb].
    assert (Hone : div (Z.pos p) 2 = 0 -> Z.odd (Z.pos p) = true).
    { unfold div. cbn [Z.eqb]. intros H0.
      pose proof (Z.div_mod (Z.pos p) 2 ltac:(lia)).
      pose proof (Zmod_odd (Z.pos p)) as Ho.
      destruct (Z.odd (Z.pos p)); [reflexivity | lia]. }
    destruct (div (Z.pos p) 2) as [|q|q] eqn:Hq.
    + now rewrite (Hone eq_refl).
    + apply rpow_loop_zero, word_up_to_ray.
      destruct (Z.odd (Z.pos p)); rewrite RAY_eq; lia.
    + unfold div in Hq. cbn [Z.eqb] in Hq.
      pose proof (Z.div_pos (Z.pos p) 2 ltac:(lia) ltac:(lia)). lia.
  - destruct (Z.odd (Z.pos p)); reflexivity.
Qed.

Lemma rpow_even_exponent_witness :
  _rpow (2 * RAY) (2 * 5) = (x' <- rpow_square (2 * RAY) ;; _rpow x' 5).
Proof.
  apply (rpow_even_exponent (2 * RAY) 5).
  - unfold word. rewrite modulus_eq, RAY_eq. lia.
  - lia.
Defined.

(** X7: Every result of [_rpow] for an exponent of two or more has passed a
    final division by [RAY], so it is at most [(2^256 - 1) / RAY]. *)
Theorem rpow_result_is_rescaled (x n r : Z) :
  word x -> 2 <= n -> _rpow x n = Ok r ->
  0 <= r <= 115792089237316195423570985008687907853269984665640.
Proof.
  intros Wx Hn Hpow. now apply (rpow_result_bound x n r).
Qed.

Lemma rpow_result_is_rescaled_witness :
  0 <= 4 * RAY <= 115792089237316195423570985008687907853269984665640.
Proof.
  apply (rpow_result_is_rescaled (2 * RAY) 2 (4 * RAY)).
  - unfold word. rewrite modulus_eq, RAY_eq. lia.
  - lia.
  - now vm_compute.
Defined.

End RpowExtras.

(** ** The 8-byte encoding and [pack_rates] *)

Section Encoding.

Lemma hexdigit_is_lower_hex (d : Z) : is_lower_hex (hexdigit d) = true.
Proof.
  destruct d as [|p|p]; [reflexivity| |reflexivity].
  repeat (destruct p as [p|p|]; try reflexivity).
Qed.

Lemma hex_of_is_lower_hex (w : nat) :
  forall n, Forall (fun c => is_lower_hex c = true) (hex_of w n).
Proof.
  induction w as [|w IH]; intros n; cbn [hex_of]; [constructor|].
  apply Forall_app. split; [apply IH|].
  constructor; [apply hexdigit_is_lower_hex | constructor].
Qed.

Lemma length_be_bytes (k : nat) : forall n, length (be_bytes k n) = k.
Proof.
  induction k as [|k IH]; intros n; [reflexivity|].
  cbn [be_bytes]. rewrite length_app, IH. cbn. lia.
Qed.

(** The bytes of the hexadecimal rendering are the big-endian bytes. *)
Lemma unhex_hex_of (k : nat) :
  forall n, unhex (hex_of (2 * k) n) = be_bytes k n.
Proof.
  induction k as [|k IH]; intros n; [reflexivity|].
  replace (2 * S k)%nat with (S (S (2 * k))) by lia.
  rewrite hex_of_two_more.
  rewrite (unhex_app_even k) by (rewrite length_hex_of; lia).
  cbn [unhex be_bytes]. rewrite IH.
  rewrite !hexval_hexdigit by (apply Z.mod_pos_bound; lia).
  do 2 f_equal.
  assert (Hbyte : n mod 256 = n mod 16 + 16 * ((n / 16) mod 16))
    by (apply (Z.rem_mul_r n 16 16); lia).
  lia.
Qed.

Lemma be_value_be_bytes (k : nat) :
  forall n, be_value (be_bytes k n) = n mod 256 ^ Z.of_nat k.
Proof.
  intros n. rewrite <- unhex_hex_of. apply be_value_unhex_hex_of.
Qed.

Lemma land_mask64 (n : Z) : Z.land n (Z.shiftl 1 64 - 1) = n mod 2 ^ 64.
Proof.
  change (Z.shiftl 1 64 - 1) with (Z.ones 64). apply Z.land_ones. lia.
Qed.

Lemma to_bytes_in_range (k : nat) (n : Z) :
  0 <= n < 256 ^ Z.of_nat k -> to_bytes k n = Some (be_bytes k n).
Proof.
  intros Hn. unfold to_bytes.
  destruct (Z.ltb_spec n 0); [lia|].
  now destruct (Z.leb_spec (256 ^ Z.of_nat k) n); [lia|].
Qed.

Lemma to_bytes_out_of_range (k : nat) (n : Z) :
  n < 0 \/ 256 ^ Z.of_nat k <= n -> to_bytes k n = None.
Proof.
  intros Hn. unfold to_bytes.
  destruct (Z.ltb_spec n 0); [reflexivity|].
  now destruct (Z.leb_spec (256 ^ Z.of_nat k) n); [|lia].
Qed.

Lemma pack_rates_in_range (rates : list Z) :
  Forall (fun r => 0 <= r < 2 ^ 64) rates ->
  pack_rates rates = Some (concat (be_bytes 8 <$> rates)).
Proof.
  induction 1 as [|r rates Hr _ IH]; [reflexivity|].
  cbn [pack_rates fmap list_fmap concat].
  now rewrite (to_bytes_in_range 8 r Hr), IH.
Qed.

Lemma pack_rates_is_Some (rates : list Z) :
  is_Some (pack_rates rates) -> Forall (fun r => 0 <= r < 2 ^ 64) rates.
Proof.
  induction rates as [|r rates IH]; [constructor|].
  cbn [pack_rates].
  destruct (Z.le_gt_cases 0 r) as [H0|Hneg];
    [destruct (Z.lt_ge_cases r (2 ^ 64)) as [H1|Hbig]|].
  - destruct (to_bytes 8 r); [|now intros [? ?]].
    destruct (pack_rates rates); [|now intros [? ?]].
    intros _. constructor; [lia|]. apply IH. now eexists.
  - rewrite to_bytes_out_of_range by (right; exact Hbig). now intros [? ?].
  - rewrite to_bytes_out_of_range by (left; exact Hneg). now intros [? ?].
Qed.

(** X8: The encoding of [int_to_bytes8] decodes to its argument: sixteen
    lower-case hexadecimal digits whose eight bytes, read big-endian, are
    the number, for every number that fits 64 bits. *)
Theorem int_to_bytes8_round_trip (n : Z) :
  0 <= n < 2 ^ 64 ->
  length (int_to_bytes8 n) = 16%nat /\
  Forall (fun c => is_lower_hex c = true) (int_to_bytes8 n) /\
  unhex (int_to_bytes8 n) = be_bytes 8 n /\
  be_value (unhex (int_to_bytes8 n)) = n.
Proof.
  intros Hn. split; [apply length_int_to_bytes8|].
  split; [apply hex_of_is_lower_hex|].
  split.
  - unfold int_to_bytes8. change 16%nat with (2 * 8)%nat.
    now rewrite unhex_hex_of, land_mask64, Z.mod_small.
  - rewrite int_to_bytes8_value. now apply Z.mod_small.
Qed.

Lemma int_to_bytes8_round_trip_witness :
  length (int_to_bytes8 (2 ^ 63 + 5)) = 16%nat /\
  Forall (fun c => is_lower_hex c = true) (int_to_bytes8 (2 ^ 63 + 5)) /\
  unhex (int_to_bytes8 (2 ^ 63 + 5)) = be_bytes 8 (2 ^ 63 + 5) /\
  be_value (unhex (int_to_bytes8 (2 ^ 63 + 5))) = 2 ^ 63 + 5.
Proof. apply (int_to_bytes8_round_trip (2 ^ 63 + 5)). lia. Defined.

(** X9: [int_to_bytes8] only sees its argument modulo [2^64]: two integers
    get the same digits exactly when they differ by a multiple of [2^64],
    so a negative number is written as its two's complement. *)
Theorem int_to_bytes8_congruence (a b : Z) :
  int_to_bytes8 a = int_to_bytes8 b <-> a mod 2 ^ 64 = b mod 2 ^ 64.
Proof.
  split.
  - intros Heq. now rewrite <- !int_to_bytes8_value, Heq.
  - intros Heq. unfold int_to_bytes8. now rewrite !land_mask64, Heq.
Qed.

(** X10: [pack_rates] succeeds exactly when every rate is an unsigned 64-bit
    number; a negative or larger rate makes [to_bytes] raise and nothing is
    returned. *)
Theorem pack_rates_succeeds_iff (rates : list Z) :
  is_Some (pack_rates rates) <-> Forall (fun r => 0 <= r < 2 ^ 64) rates.
Proof.
  split; [apply pack_rates_is_Some|].
  intros Hall. rewrite (pack_rates_in_range rates Hall). now eexists.
Qed.

(** X11: What [pack_rates] returns is eight bytes per rate, and the [k]-th
    group of eight, read big-endian, is the [k]-th rate. *)
Theorem pack_rates_layout (rates packed : list Z) (k : nat) (r : Z) :
  pack_rates rates = Some packed ->
  rates !! k = Some r ->
  length packed = (8 * length rates)%nat /\
  take 8 (drop (8 * k) packed) = be_bytes 8 r /\
  be_value (take 8 (drop (8 * k) packed)) = r.
Proof.
  intros Hpack Hk.
  assert (Hall : Forall (fun r => 0 <= r < 2 ^ 64) rates)
    by (apply pack_rates_is_Some; exists packed; exact Hpack).
  rewrite (pack_rates_in_range rates Hall) in Hpack.
  assert (Hp : packed = concat (be_bytes 8 <$> rates)) by congruence.
  subst packed. clear Hpack.
  assert (Hr : 0 <= r < 2 ^ 64)
    by (apply (proj1 (Forall_lookup _ _) Hall k r Hk)).
  assert (Hchunk : take 8 (drop (8 * k) (concat (be_bytes 8 <$> rates)))
                   = be_bytes 8 r).
  { clear Hall. revert k Hk.
    induction rates as [|r0 rates IH]; intros k Hk; [discriminate|].
    cbn [fmap list_fmap concat]. destruct k as [|k].
    - injection Hk as ->. rewrite Nat.mul_0_r, drop_0.
      apply take_app_length'. now rewrite length_be_bytes.
    - replace (8 * S k)%nat with (8 + 8 * k)%nat by lia.
      rewrite (drop_app_add' (be_bytes 8 r0) _ 8 (8 * k))
        by (symmetry; apply length_be_bytes).
      now apply IH. }
  split; [|split].
  - clear. induction rates as [|r0 rates IH]; [reflexivity|].
    cbn [fmap list_fmap concat length].
    rewrite length_app, length_be_bytes, IH. lia.
  - exact Hchunk.
  - rewrite Hchunk, be_value_be_bytes.
    change (256 ^ Z.of_nat 8) with (2 ^ 64). now apply Z.mod_small.
Qed.

Lemma pack_rates_layout_witness :
  length [0; 0; 0; 0; 0; 0; 0; 5; 0; 0; 0; 0; 0; 0; 1; 0] = (8 * 2)%nat /\
  take 8 (drop (8 * 1) [0; 0; 0; 0; 0; 0; 0; 5; 0; 0; 0; 0; 0; 0; 1; 0])
    = be_bytes 8 256 /\
  be_value
    (take 8 (drop (8 * 1) [0; 0; 0; 0; 0; 0; 0; 5; 0; 0; 0; 0; 0; 0; 1; 0]))
    = 256.
Proof.
  apply (pack_rates_layout [5; 256]
           [0; 0; 0; 0; 0; 0; 0; 5; 0; 0; 0; 0; 0; 0; 1; 0] 1 256);
    reflexivity.
Defined.

End Encoding.

(** ** The generator as a whole *)

Section GeneratorLaws.

Lemma mapM_app {A B} (f : A -> result B) (l1 l2 : list A) :
  mapM f (l1 ++ l2) =
  (a <- mapM f l1 ;; b <- mapM f l2 ;; Ok (a ++ b)).
Proof.
  induction l1 as [|x l1 IH]; cbn [app mapM bind].
  - now destruct (mapM f l2).
  - destruct (f x); [|reflexivity]. cbn [bind]. rewrite IH.
    destruct (mapM f l1); [|reflexivity]. cbn [bind].
    now destruct (mapM f l2).
Qed.

Lemma mapM_fmap {A B C} (f : B -> result C) (g : A -> B) (l : list A) :
  mapM f (g <$> l) = mapM (fun a => f (g a)) l.
Proof.
  induction l as [|a l IH]; [reflexivity|].
  cbn [fmap list_fmap mapM]. fold (g <$> l). now rewrite IH.
Qed.

Lemma mapM_ext {A B} (f g : A -> result B) (l : list A) :
  (forall a, f a = g a) -> mapM f l = mapM g l.
Proof.
  intros Hfg. induction l as [|a l IH]; [reflexivity|].
  cbn [mapM]. now rewrite Hfg, IH.
Qed.

(** Running an inner loop over each chunk and joining the results is one
    loop over the joined chunks. *)
Lemma mapM_nested {A B} (f : A -> result B) (L : list (list A)) :
  (ws <- mapM (mapM f) L ;; Ok (concat ws)) = mapM f (concat L).
Proof.
  induction L as [|l L IH]; [reflexivity|].
  cbn [mapM concat]. rewrite mapM_app, <- IH.
  destruct (mapM f l); [|reflexivity]. cbn [bind].
  now destruct (mapM (mapM f) L).
Qed.

Lemma concat_seq_chunks (m : nat) :
  concat ((fun i => seq i 4) <$> ((fun k => k * 4)%nat <$> seq 0 m)) =
  seq 0 (4 * m).
Proof.
  induction m as [|m IH]; [reflexivity|].
  rewrite seq_S, !fmap_app, concat_app, IH.
  cbn [fmap list_fmap concat]. rewrite app_nil_r, Nat.add_0_l.
  replace (4 * S m)%nat with (4 * m + 4)%nat by lia.
  rewrite seq_app. do 2 f_equal. lia.
Qed.

(** The two nested loops are one pass over the positions
    [0 .. 4 * word_count - 1], in order. *)
Lemma all_bytes_flat (rates : gmap Z Z) (sorted_bps : list Z) :
  all_bytes rates sorted_bps =
  mapM (hex_rate rates sorted_bps)
       (seq 0 (4 * word_count (length sorted_bps))).
Proof.
  unfold all_bytes. rewrite <- concat_seq_chunks, <- mapM_nested.
  rewrite range_step_4.
  rewrite (mapM_fmap (mapM (hex_rate rates sorted_bps)) (fun i => seq i 4)).
  rewrite (mapM_ext (word_rates rates sorted_bps)
             (fun i => mapM (hex_rate rates sorted_bps) (seq i 4)));
    [reflexivity|].
  intros i. unfold word_rates.
  replace (seq i 4) with (Nat.add i <$> seq 0 4)
    by (rewrite fmap_add_seq; f_equal; lia).
  now rewrite mapM_fmap.
Qed.

Lemma mapM_seq_first_err {B} (f : nat -> result B) (n : nat) :
  forall a e, mapM f (seq a n) = Err e ->
  exists k, (a <= k < a + n)%nat /\ f k = Err e /\
            forall k', (a <= k' < k)%nat -> is_ok (f k') = true.
Proof.
  induction n as [|n IH]; intros a e; [discriminate|].
  cbn [seq mapM]. destruct (f a) as [b|e'] eqn:Hfa; cbn [bind].
  - destruct (mapM f (seq (S a) n)) as [bs|e'] eqn:Hrest; [discriminate|].
    cbn [bind]. intros [= ->].
    destruct (IH (S a) e Hrest) as (k & Hk & Hfk & Hbefore).
    exists k. split; [lia|]. split; [assumption|].
    intros k' Hk'. destruct (Nat.eq_dec k' a) as [->|Hne].
    + now rewrite Hfa.
    + apply Hbefore. lia.
  - intros [= ->]. exists a. split; [lia|]. split; [assumption|]. lia.
Qed.

Lemma hex_rate_err_at (rates : gmap Z Z) (sorted_bps : list Z)
      (k : nat) (e : error) :
  hex_rate rates sorted_bps k = Err e ->
  (k < length sorted_bps)%nat /\
  2 ^ 64 <= rates !!! (sorted_bps !!! k) - RAY /\
  e = ValueError (sorted_bps !!! k) (rates !!! (sorted_bps !!! k) - RAY).
Proof.
  unfold hex_rate.
  destruct (Nat.ltb_spec k (length sorted_bps)) as [Hk|]; [|discriminate].
  change (Z.shiftl 1 64) with (2 ^ 64). unfold Z.geb.
  destruct (Z.compare_spec (rates !!! (sorted_bps !!! k) - RAY) (2 ^ 64));
    intros [= <-]; (split; [assumption|split; [lia|reflexivity]]).
Qed.

Lemma hex_rate_ok_at (rates : gmap Z Z) (sorted_bps : list Z) (k : nat) :
  (k < length sorted_bps)%nat ->
  is_ok (hex_rate rates sorted_bps k) = true ->
  rates !!! (sorted_bps !!! k) - RAY < 2 ^ 64.
Proof.
  intros Hk. unfold hex_rate.
  destruct (Nat.ltb_spec k (length sorted_bps)); [|lia].
  change (Z.shiftl 1 64) with (2 ^ 64). unfold Z.geb.
  destruct (Z.compare_spec (rates !!! (sorted_bps !!! k) - RAY) (2 ^ 64));
    (discriminate || lia).
Qed.

(** *** The sorted keys *)

Lemma Sorted_sorted_keys (rates : gmap Z Z) :
  StronglySorted Z.le (sorted_keys rates).
Proof.
  apply Sorted_StronglySorted; [apply _|].
  apply Sorted_merge_sort; apply _.
Qed.

Lemma StronglySorted_lookup_le (l : list Z) :
  StronglySorted Z.le l ->
  forall i j a b, (i <= j)%nat -> l !! i = Some a -> l !! j = Some b ->
                  a <= b.
Proof.
  induction 1 as [|x l Hl IH Hx]; intros i j a b Hij Hi Hj;
    [discriminate|].
  destruct i as [|i], j as [|j]; cbn in Hi, Hj; try lia.
  - assert (a = b) by congruence. lia.
  - injection Hi as <-. rewrite Forall_forall in Hx.
    apply Hx. now apply list_elem_of_lookup_2 in Hj.
  - apply (IH i j); (lia || assumption).
Qed.

Lemma length_sorted_keys (rates : gmap Z Z) :
  length (sorted_keys rates) = size rates.
Proof.
  unfold sorted_keys. rewrite merge_sort_Permutation.
  now rewrite <- size_dom.
Qed.

Lemma sorted_keys_nil (rates : gmap Z Z) :
  sorted_keys rates = [] <-> rates = ∅.
Proof.
  rewrite <- (map_size_empty_iff rates), <- length_sorted_keys.
  split; [now intros -> | apply nil_length_inv].
Qed.

(** A successful run has the closed form of the table, and its mapping had
    no offending delta. *)
Lemma generate_from_inv (rates : gmap Z Z) (c : Conv) :
  generate_from rates = Ok c ->
  rates <> ∅ /\
  map_Forall (fun _ r => r - RAY < 2 ^ 64) rates /\
  last (sorted_keys rates) = Some (MAX c) /\
  rate_count c = length (sorted_keys rates) /\
  RATES_hex c =
    concat ((fun w => hexword_at rates (sorted_keys rates) (w * 4))
            <$> seq 0 (word_count (length (sorted_keys rates)))).
Proof.
  intros Hgen.
  assert (Hne : rates <> ∅).
  { intros ->. now vm_compute in Hgen. }
  assert (Hfit : map_Forall (fun _ r => r - RAY < 2 ^ 64) rates).
  { intros b r Hr. destruct (Z.lt_ge_cases (r - RAY) (2 ^ 64)) as [|Hbig];
      [assumption|].
    destruct (generate_from_err rates b r Hr Hbig) as (b' & d & Herr & _).
    congruence. }
  destruct (map_choose rates Hne) as (b0 & r0 & Hb0).
  destruct (generate_from_ok rates b0) as (mx & Hlast & Hok);
    [now exists r0 | assumption |].
  rewrite Hok in Hgen. injection Hgen as <-.
  repeat split; assumption.
Qed.

Lemma sorted_keys_upper_bound (rates : gmap Z Z) (mx b : Z) :
  last (sorted_keys rates) = Some mx -> is_Some (rates !! b) -> b <= mx.
Proof.
  intros Hlast Hb. apply elem_of_sorted_keys in Hb.
  apply list_elem_of_lookup_1 in Hb as [k Hk].
  rewrite last_lookup in Hlast.
  apply (StronglySorted_lookup_le _ (Sorted_sorted_keys rates)
           k (pred (length (sorted_keys rates))) b mx);
    [|assumption|assumption].
  apply lookup_lt_Some in Hk. lia.
Qed.

Lemma field_at_is_lower_hex (rates : gmap Z Z) (sorted_bps : list Z)
      (k : nat) :
  Forall (fun ch => is_lower_hex ch = true) (field_at rates sorted_bps k).
Proof.
  unfold field_at. destruct (k <? length sorted_bps)%nat.
  - apply hex_of_is_lower_hex.
  - rewrite zero_field. apply hex_of_is_lower_hex.
Qed.

Lemma unhex_field_at (rates : gmap Z Z) (sorted_bps : list Z) (k : nat) :
  unhex (field_at rates sorted_bps k) =
  be_bytes 8 (stored_delta rates sorted_bps k).
Proof.
  unfold field_at, stored_delta.
  destruct (k <? length sorted_bps)%nat; [|reflexivity].
  unfold int_to_bytes8. change 16%nat with (2 * 8)%nat.
  now rewrite unhex_hex_of, land_mask64.
Qed.

Lemma concat_by_fours {A} (g : nat -> list A) (m : nat) :
  concat ((fun w => g (w * 4) ++ g (w * 4 + 1) ++ g (w * 4 + 2)
                    ++ g (w * 4 + 3))%nat <$> seq 0 m) =
  concat (g <$> seq 0 (4 * m)).
Proof.
  induction m as [|m IH]; [reflexivity|].
  rewrite seq_S, fmap_app, concat_app, IH.
  replace (4 * S m)%nat with (4 * m + 4)%nat by lia.
  rewrite seq_app, fmap_app, concat_app. f_equal.
  cbn [fmap list_fmap concat seq]. rewrite !app_nil_r, Nat.add_0_l.
  replace (m * 4)%nat with (4 * m)%nat by lia.
  replace (4 * m + 1)%nat with (S (4 * m)) by lia.
  replace (4 * m + 2)%nat with (S (S (4 * m))) by lia.
  replace (4 * m + 3)%nat with (S (S (S (4 * m)))) by lia.
  reflexivity.
Qed.

(** [MAX] is the largest key and the count is the number of entries. *)
Lemma generated_max_key (rates : gmap Z Z) (c : Conv) :
  generate_from rates = Ok c ->
  rate_count c = size rates /\
  is_Some (rates !! MAX c) /\
  (forall b, is_Some (rates !! b) -> b <= MAX c).
Proof.
  intros Hgen.
  apply generate_from_inv in Hgen as (_ & _ & Hlast & Hcount & _).
  rewrite length_sorted_keys in Hcount.
  split; [assumption|].
  split; [apply elem_of_sorted_keys; now apply last_Some_elem_of|].
  intros b; now apply sorted_keys_upper_bound.
Qed.

(** X12: The generator raises [IndexError] exactly for the empty mapping, and
    it succeeds exactly when the mapping is not empty and every delta
    [rate - RAY] is below [2^64]; rates below [RAY] never stop it. *)
Theorem generate_from_outcome (rates : gmap Z Z) :
  (generate_from rates = Err IndexError <-> rates = ∅) /\
  (is_ok (generate_from rates) = true <->
   rates <> ∅ /\ map_Forall (fun _ r => r - RAY < 2 ^ 64) rates).
Proof.
  split; split.
  - intros Herr. apply sorted_keys_nil.
    destruct (sorted_keys rates) as [|b0 l] eqn:Hkeys; [reflexivity|].
    exfalso. unfold generate_from in Herr. rewrite Hkeys in Herr.
    assert (Hl : is_Some (last (b0 :: l))) by now apply last_is_Some.
    destruct Hl as [mx Hmx]. rewrite Hmx in Herr. cbn [head bind] in Herr.
    rewrite <- Hkeys in Herr.
    destruct (all_bytes rates (sorted_keys rates)) as [fs|e] eqn:Hall;
      [discriminate|].
    apply all_bytes_err in Hall as (b & _ & _ & ->). discriminate.
  - intros ->. now vm_compute.
  - destruct (generate_from rates) as [c|e] eqn:Hgen; [|discriminate].
    intros _. apply generate_from_inv in Hgen. tauto.
  - intros [Hne Hfit]. destruct (map_choose rates Hne) as (b0 & r0 & Hb0).
    destruct (generate_from_ok rates b0) as (mx & _ & ->);
      [now exists r0 | assumption | reflexivity].
Qed.

(** X13: The [ValueError] names the smallest [bps] whose delta does not fit,
    together with that delta: the entries are checked in ascending order
    of [bps] and the first offender stops the run. *)
Theorem generate_from_reports_least_offender
        (rates : gmap Z Z) (b d : Z) :
  generate_from rates = Err (ValueError b d) ->
  rates !! b = Some (d + RAY) /\
  2 ^ 64 <= d /\
  forall b' r', rates !! b' = Some r' -> 2 ^ 64 <= r' - RAY -> b <= b'.
Proof.
  intros Herr. unfold generate_from in Herr.
  destruct (head (sorted_keys rates)); [|discriminate].
  destruct (last (sorted_keys rates)); [|discriminate].
  cbn [bind] in Herr.
  destruct (all_bytes rates (sorted_keys rates)) as [fs|e] eqn:Hall;
    [discriminate|].
  cbn [bind] in Herr. injection Herr as ->.
  rewrite all_bytes_flat in Hall.
  apply mapM_seq_first_err in Hall as (k & _ & Hk & Hbefore).
  apply hex_rate_err_at in Hk as (Hlen & Hbig & [= -> ->]).
  pose proof (list_lookup_lookup_total_lt _ _ Hlen) as Hkb.
  set (b := sorted_keys rates !!! k) in *.
  assert (Hin : is_Some (rates !! b))
    by (apply elem_of_sorted_keys; now apply list_elem_of_lookup_2 in Hkb).
  destruct Hin as [r Hr]. rewrite (lookup_total_correct _ _ _ Hr) in *.
  split; [rewrite Hr; f_equal; lia|]. split; [assumption|].
  intros b' r' Hr' Hbig'.
  assert (Hin' : b' ∈ sorted_keys rates)
    by (apply elem_of_sorted_keys; now exists r').
  apply list_elem_of_lookup_1 in Hin' as [k' Hk'].
  pose proof (lookup_lt_Some _ _ _ Hk') as Hlen'.
  destruct (Nat.le_gt_cases k k') as [Hle|Hlt].
  - now apply (StronglySorted_lookup_le _ (Sorted_sorted_keys rates)
                 k k' b b').
  - exfalso.
    pose proof (hex_rate_ok_at rates (sorted_keys rates) k' Hlen'
                  (Hbefore k' ltac:(lia))) as Hfit.
    rewrite (list_lookup_total_correct _ _ _ Hk') in Hfit.
    rewrite (lookup_total_correct _ _ _ Hr') in Hfit. lia.
Qed.

Lemma generate_from_reports_least_offender_witness :
  ({[ 0 := RAY; 1 := RAY + 2 ^ 64; 2 := RAY + 2 ^ 65 ]} : gmap Z Z) !! 1
    = Some (2 ^ 64 + RAY) /\
  2 ^ 64 <= 2 ^ 64 /\
  forall b' r',
    ({[ 0 := RAY; 1 := RAY + 2 ^ 64; 2 := RAY + 2 ^ 65 ]} : gmap Z Z) !! b'
      = Some r' ->
    2 ^ 64 <= r' - RAY -> 1 <= b'.
Proof.
  apply (generate_from_reports_least_offender
           {[ 0 := RAY; 1 := RAY + 2 ^ 64; 2 := RAY + 2 ^ 65 ]} 1 (2 ^ 64)).
  now vm_compute.
Defined.

(** X14: The shape of a generated table: [MAX] is the largest key of the
    mapping, the count is the number of entries, the literal consists of
    lower-case hexadecimal digits only, 64 per word, and the words, 32
    bytes each, are just enough for the entries: fewer than four fields of
    padding. *)
Theorem generated_table_shape (rates : gmap Z Z) (c : Conv) :
  generate_from rates = Ok c ->
  rate_count c = size rates /\
  is_Some (rates !! MAX c) /\
  (forall b, is_Some (rates !! b) -> b <= MAX c) /\
  Forall (fun ch => is_lower_hex ch = true) (RATES_hex c) /\
  length (RATES_hex c) = (64 * word_count (size rates))%nat /\
  length (unhex (RATES_hex c)) = (32 * word_count (size rates))%nat /\
  (size rates <= 4 * word_count (size rates) < size rates + 4)%nat.
Proof.
  intros Hgen.
  destruct (generated_max_key rates c Hgen) as (Hcount & Hmax & Hupper).
  apply generate_from_inv in Hgen as (_ & _ & _ & _ & Hhex).
  do 3 (split; [assumption|]).
  rewrite <- !(length_sorted_keys rates).
  split; [|split; [|split]].
  - rewrite Hhex. apply Forall_concat, Forall_fmap, Forall_forall.
    intros w _. cbn. unfold hexword_at.
    rewrite !Forall_app. repeat split; apply field_at_is_lower_hex.
  - rewrite Hhex. apply length_chunks. intros k. apply length_hexword.
  - now rewrite Hhex, generated_bytes, length_generated_bytes.
  - unfold word_count.
    pose proof (Nat.div_mod_eq (length (sorted_keys rates) + 4 - 1) 4).
    pose proof (Nat.mod_upper_bound (length (sorted_keys rates) + 4 - 1) 4).
    lia.
Qed.

Lemma generated_table_shape_witness :
  rate_count sample_conv = size (parse_rates_mapping sample_lines 5000) /\
  is_Some (parse_rates_mapping sample_lines 5000 !! MAX sample_conv) /\
  (forall b, is_Some (parse_rates_mapping sample_lines 5000 !! b) ->
             b <= MAX sample_conv) /\
  Forall (fun ch => is_lower_hex ch = true) (RATES_hex sample_conv) /\
  length (RATES_hex sample_conv) =
    (64 * word_count (size (parse_rates_mapping sample_lines 5000)))%nat /\
  length (unhex (RATES_hex sample_conv)) =
    (32 * word_count (size (parse_rates_mapping sample_lines 5000)))%nat /\
  (size (parse_rates_mapping sample_lines 5000)
   <= 4 * word_count (size (parse_rates_mapping sample_lines 5000))
   < size (parse_rates_mapping sample_lines 5000) + 4)%nat.
Proof.
  apply (generated_table_shape (parse_rates_mapping sample_lines 5000)
           sample_conv).
  now vm_compute.
Defined.

(** X15: The packed bytes are what [pack_rates] makes of the stored deltas:
    the bytes of the generated literal equal [pack_rates] applied to the
    deltas of the sorted entries, each reduced modulo [2^64], followed by
    the zero padding. *)
Theorem generated_bytes_are_packed_deltas (rates : gmap Z Z) (c : Conv) :
  generate_from rates = Ok c ->
  pack_rates (stored_delta rates (sorted_keys rates)
              <$> seq 0 (4 * word_count (size rates))) =
  Some (unhex (RATES_hex c)).
Proof.
  intros Hgen.
  apply generate_from_inv in Hgen as (_ & _ & _ & _ & Hhex).
  rewrite pack_rates_in_range
    by (apply Forall_fmap, Forall_forall; intros k _; apply delta_range).
  f_equal. rewrite Hhex, generated_bytes, length_sorted_keys.
  rewrite <- list_fmap_compose.
  rewrite <- (concat_by_fours
                (be_bytes 8 ∘ stored_delta rates (sorted_keys rates))).
  f_equal. apply list_fmap_ext. intros _ w _. unfold hexword_at, compose.
  rewrite !(unhex_app_even 8) by apply length_field.
  now rewrite !unhex_field_at.
Qed.

Lemma generated_bytes_are_packed_deltas_witness :
  pack_rates
    (stored_delta (parse_rates_mapping sample_lines 5000)
                  (sorted_keys (parse_rates_mapping sample_lines 5000))
     <$> seq 0 (4 * word_count (size (parse_rates_mapping sample_lines 5000))))
  = Some (unhex (RATES_hex sample_conv)).
Proof.
  apply (generated_bytes_are_packed_deltas
           (parse_rates_mapping sample_lines 5000) sample_conv).
  now vm_compute.
Defined.

End GeneratorLaws.

(** ** Lookups in any generated table, and the parser *)

Section LookupLaws.

Import EVM.

(** What [turn] returns on the table generated from any mapping, dense or
    not, for an index within the range check. *)
Lemma turn_generated (lines : list (Z * Z)) (c : Conv) (bps : Z) :
  generate_contract lines = Ok c ->
  0 <= bps <= MAX c ->
  turn c bps =
  Ok (RAY +
      match sorted_keys (parse_rates_mapping lines 5000) !! Z.to_nat bps with
      | Some b => (parse_rates_mapping lines 5000 !!! b - RAY) mod 2 ^ 64
      | None => 0
      end).
Proof.
  unfold generate_contract. set (rates := parse_rates_mapping lines 5000).
  intros Hgen Hbps.
  pose proof (generated_max_key rates c Hgen) as (_ & Hmax & _).
  apply generate_from_inv in Hgen as (Hne & _ & _ & _ & Hhex).
  assert (H5000 : MAX c <= 5000) by now apply (parse_keys_le 5000 lines).
  assert (Hlen : (0 < length (sorted_keys rates))%nat).
  { destruct (sorted_keys rates) eqn:Hk; [|cbn; lia].
    now apply sorted_keys_nil in Hk. }
  assert (Hwords : (length (sorted_keys rates) <=
                    4 * word_count (length (sorted_keys rates)))%nat).
  { unfold word_count.
    pose proof (Nat.div_mod_eq (length (sorted_keys rates) + 4 - 1) 4).
    pose proof (Nat.mod_upper_bound (length (sorted_keys rates) + 4 - 1) 4).
    lia. }
  rewrite (turn_packed rates (sorted_keys rates) c bps Hhex);
    [|lia|assumption|lia].
  do 2 f_equal. unfold stored_delta.
  destruct (Nat.ltb_spec (Z.to_nat bps) (length (sorted_keys rates)))
    as [Hin|Hout].
  - rewrite (list_lookup_lookup_total_lt _ _ Hin).
    now destruct (Z.ltb_spec bps (4 * Z.of_nat
                    (word_count (length (sorted_keys rates))))); [|lia].
  - rewrite (lookup_ge_None_2 _ _ Hout).
    now destruct (bps <? _).
Qed.

(** X16: [turn] indexes the table by position, not by key: on the table
    generated from any mapping, [turn(k)] for [k <= MAX] returns the rate
    of the [k]-th smallest key, as [RAY] plus its delta modulo [2^64], and
    [RAY] when the mapping has no more than [k] entries. *)
Theorem turn_reads_by_position (lines : list (Z * Z)) (c : Conv) (bps : Z) :
  generate_contract lines = Ok c ->
  0 <= bps <= MAX c ->
  turn c bps =
  Ok (RAY +
      match sorted_keys (parse_rates_mapping lines 5000) !! Z.to_nat bps with
      | Some b => (parse_rates_mapping lines 5000 !!! b - RAY) mod 2 ^ 64
      | None => 0
      end).
Proof. apply turn_generated. Qed.

Lemma turn_reads_by_position_witness :
  turn sample_conv 1 =
  Ok (RAY +
      match sorted_keys (parse_rates_mapping sample_lines 5000)
              !! Z.to_nat 1 with
      | Some b =>
          (parse_rates_mapping sample_lines 5000 !!! b - RAY) mod 2 ^ 64
      | None => 0
      end).
Proof.
  apply (turn_reads_by_position sample_lines sample_conv 1).
  - now vm_compute.
  - cbn [MAX sample_conv]. lia.
Defined.

(** X17: In a table whose keys have gaps there are fewer entries than
    [MAX + 1], and every index from the number of entries up to [MAX]
    reads padding or empty storage: [turn] returns [RAY] there, whatever
    the mapping holds; in particular the rate of the largest key is not
    found under its own index. *)
Theorem turn_beyond_entries_is_RAY (lines : list (Z * Z)) (c : Conv)
        (bps : Z) :
  generate_contract lines = Ok c ->
  Z.of_nat (rate_count c) <= bps <= MAX c ->
  turn c bps = Ok RAY.
Proof.
  intros Hgen Hbps.
  rewrite (turn_generated lines c bps Hgen) by lia.
  unfold generate_contract in Hgen.
  apply generate_from_inv in Hgen as (_ & _ & _ & Hcount & _).
  rewrite lookup_ge_None_2 by lia. now rewrite Z.add_0_r.
Qed.

Lemma turn_beyond_entries_is_RAY_witness : turn sample_conv 100 = Ok RAY.
Proof.
  apply (turn_beyond_entries_is_RAY sample_lines sample_conv 100).
  - now vm_compute.
  - cbn [MAX rate_count sample_conv]. lia.
Defined.

(** X18: Whatever the storage holds, a rate returned by [turn] is [RAY] plus
    an unsigned 64-bit delta: never below [RAY], never [2^64] or more
    above it. *)
Theorem turn_rate_window (c : Conv) (bps rate : Z) :
  turn c bps = Ok rate -> RAY <= rate < RAY + 2 ^ 64.
Proof.
  unfold turn. destruct (negb (bps <=? MAX c)); [discriminate|].
  intros [= <-]. unfold and.
  change 0xFFFFFFFFFFFFFFFF with (Z.ones 64).
  rewrite Z.land_ones by lia.
  match goal with
  | |- context [?v mod 2 ^ 64] =>
      pose proof (Z.mod_pos_bound v (2 ^ 64) ltac:(lia)) as Hd;
      set (d := v mod 2 ^ 64) in *
  end.
  rewrite add_small by (rewrite modulus_eq, RAY_eq; lia). lia.
Qed.

Lemma turn_rate_window_witness : RAY <= RAY + 5 < RAY + 2 ^ 64.
Proof.
  apply (turn_rate_window sample_conv 1 (RAY + 5)). now vm_compute.
Defined.

End LookupLaws.

Section ParserLaws.

(** A line that comes after the last line for [b] does not touch [b]. *)
Lemma parse_step_other (max_bps b : Z) (lines : list (Z * Z)) :
  forall acc : gmap Z Z,
  b ∉ lines.*1 ->
  foldl (fun rates '(bps, rate) =>
           if bps <=? max_bps then <[bps := rate]> rates else rates)
        acc lines !! b = acc !! b.
Proof.
  induction lines as [|[b0 r0] lines IH]; intros acc Hnot; [reflexivity|].
  cbn [foldl]. rewrite fmap_cons in Hnot. cbn in Hnot.
  apply not_elem_of_cons in Hnot as [Hne Hnot].
  rewrite IH by assumption.
  destruct (b0 <=? max_bps); [|reflexivity].
  now rewrite lookup_insert_ne.
Qed.

(** X19: The parsed dict in closed form: the lines whose [bps] is at most
    [max_bps], a later line for the same [bps] overriding an earlier
    one. *)
Theorem parse_rates_mapping_closed_form (lines : list (Z * Z))
        (max_bps : Z) :
  parse_rates_mapping lines max_bps =
  list_to_map (reverse (filter (fun p => p.1 <= max_bps) lines)).
Proof.
  unfold parse_rates_mapping.
  induction lines as [|[b r] lines IH] using rev_ind; [reflexivity|].
  rewrite foldl_snoc, filter_app, reverse_app, IH.
  rewrite filter_cons, filter_nil. cbn [fst].
  destruct (Z.leb_spec b max_bps) as [Hle|Hgt].
  - now rewrite decide_True by assumption.
  - now rewrite decide_False by lia.
Qed.

(** X20: The keys of the parsed dict are exactly the [bps] of the lines that
    are at most [max_bps]; entries above the bound are dropped. *)
Theorem parse_rates_mapping_keys (lines : list (Z * Z)) (max_bps b : Z) :
  is_Some (parse_rates_mapping lines max_bps !! b) <->
  b <= max_bps /\ b ∈ lines.*1.
Proof.
  unfold parse_rates_mapping.
  induction lines as [|[b0 r0] lines IH] using rev_ind.
  - cbn. rewrite lookup_empty. split; [now intros [? ?]|].
    intros [_ H]. now apply elem_of_nil in H.
  - rewrite foldl_snoc, fmap_app, elem_of_app. cbn [fmap list_fmap fst].
    rewrite list_elem_of_singleton.
    destruct (Z.leb_spec b0 max_bps) as [Hle|Hgt].
    + rewrite lookup_insert_is_Some, IH.
      destruct (decide (b0 = b)) as [->|Hne]; [tauto|].
      split; [intros [?|[_ ?]]; tauto | intros [? [?|?]]; [tauto|congruence]].
    + rewrite IH. split; [tauto|]. intros [? [?| ->]]; [tauto|lia].
Qed.

(** X21: The last line for a [bps] wins: the dict holds the rate of the last
    line that names the [bps], provided the [bps] is within the bound. *)
Theorem parse_rates_mapping_last_line_wins
        (before after : list (Z * Z)) (max_bps b r : Z) :
  b <= max_bps -> b ∉ after.*1 ->
  parse_rates_mapping (before ++ (b, r) :: after) max_bps !! b = Some r.
Proof.
  intros Hle Hnot. unfold parse_rates_mapping.
  rewrite foldl_app. cbn [foldl].
  rewrite parse_step_other by assumption.
  destruct (Z.leb_spec b max_bps); [|lia].
  apply lookup_insert_eq.
Qed.

Lemma parse_rates_mapping_last_line_wins_witness :
  parse_rates_mapping ([(7, RAY)] ++ (7, RAY + 1) :: [(8, RAY + 2)]) 5000
    !! 7 = Some (RAY + 1).
Proof.
  apply (parse_rates_mapping_last_line_wins
           [(7, RAY)] [(8, RAY + 2)] 5000 7 (RAY + 1)).
  - lia.
  - cbn. rewrite list_elem_of_singleton. lia.
Defined.

End ParserLaws.

(** ** When a generated table is dense *)

Section Density.

(** X22: A density test on the generated contract: when no key is negative,
    the mapping is defined exactly on [0 .. MAX] if and only if the number
    of packed rates is [MAX + 1]; and then every lookup within the range
    returns the rate of its own key, modulo [2^64] above [RAY]. *)
Theorem dense_iff_count (lines : list (Z * Z)) (c : Conv) :
  generate_contract lines = Ok c ->
  map_Forall (fun b _ => 0 <= b) (parse_rates_mapping lines 5000) ->
  (Z.of_nat (rate_count c) = MAX c + 1 <->
   dom (parse_rates_mapping lines 5000) = list_to_set (seqZ 0 (MAX c + 1)))
  /\
  (Z.of_nat (rate_count c) = MAX c + 1 ->
   forall bps r, parse_rates_mapping lines 5000 !! bps = Some r ->
                 turn c bps = Ok (RAY + (r - RAY) mod 2 ^ 64)).
Proof.
  unfold generate_contract. set (rates := parse_rates_mapping lines 5000).
  intros Hgen Hkeys.
  assert (Hnonneg : forall b, is_Some (rates !! b) -> 0 <= b)
    by (intros b [r Hr]; apply (map_Forall_lookup_1 _ _ _ _ Hkeys Hr)).
  pose proof (generated_max_key rates c Hgen) as (Hcount & Hmax & Hupper).
  assert (Hmax0 : 0 <= MAX c) by now apply Hnonneg.
  assert (Hsub : dom rates ⊆ list_to_set (seqZ 0 (MAX c + 1))).
  { intros b Hb. apply elem_of_dom in Hb.
    rewrite elem_of_list_to_set, elem_of_seqZ.
    pose proof (Hnonneg b Hb). pose proof (Hupper b Hb). lia. }
  assert (Hsize : size (list_to_set (seqZ 0 (MAX c + 1)) : gset Z) =
                  Z.to_nat (MAX c + 1)).
  { rewrite size_list_to_set by apply NoDup_seqZ. apply length_seqZ. }
  assert (Hiff : Z.of_nat (rate_count c) = MAX c + 1 <->
                 dom rates = list_to_set (seqZ 0 (MAX c + 1))).
  { split.
    - intros Heq. apply set_subseteq_size_eq; [assumption|].
      rewrite Hsize, size_dom. lia.
    - intros Hdom. rewrite Hcount, <- size_dom, Hdom, Hsize. lia. }
  split; [exact Hiff|].
  intros Heq bps r Hr. apply Hiff in Heq.
  assert (Hfit : map_Forall (fun _ r => r - RAY < 2 ^ 64) rates)
    by (apply generate_from_inv in Hgen; tauto).
  destruct (turn_dense lines (MAX c) Hmax0 Heq Hfit) as (c' & Hgen' & _ & Ht).
  unfold generate_contract in Hgen'. fold rates in Hgen'.
  assert (c' = c) by congruence. subst c'. now apply Ht.
Qed.

Lemma dense_iff_count_witness :
  (Z.of_nat (rate_count sample_conv) = MAX sample_conv + 1 <->
   dom (parse_rates_mapping sample_lines 5000)
   = list_to_set (seqZ 0 (MAX sample_conv + 1)))
  /\
  (Z.of_nat (rate_count sample_conv) = MAX sample_conv + 1 ->
   forall bps r, parse_rates_mapping sample_lines 5000 !! bps = Some r ->
                 turn sample_conv bps = Ok (RAY + (r - RAY) mod 2 ^ 64)).
Proof.
  apply (dense_iff_count sample_lines sample_conv).
  - now vm_compute.
  - apply (bool_decide_unpack _). now vm_compute.
Defined.

End Density.
